(** * The CSS selector builder of [objects-tasks.js]

    A shallow embedding of the class [CSSSelector] and of the object
    [cssSelectorBuilder] (src/src/objects-tasks.js, lines 321-461), and the
    properties of the builder stated by the specification.

    JavaScript objects are mutable and passed by reference: every method of
    [CSSSelector] ends in [return this], and [combine] starts with
    [new CSSSelector()].  The embedding keeps this: builders live in a heap,
    methods take the location of [this], and a method call is a computation
    that transforms the heap and either returns or throws.

    Fragment values are strings (tag names, identifiers, class names, ...),
    as in the data model of the specification; the slots [element] and [id]
    hold [null] or a string. *)

From stdpp Require Import base option list strings gmap sorting.

Local Open Scope Z_scope.

(** ** Keys of [parts], which are also the tags pushed on [order] *)

Module Key.

Inductive t : Set :=
  | element | id | classes | attributes | pseudoClasses | pseudoElements.

#[global] Instance eq_dec : EqDecision t.
Proof. solve_decision. Defined.

End Key.

(** ** The object literal assigned to [this.parts] *)

Module Parts.

Record t : Set := mk {
  element : option string;          (* null, or the value assigned *)
  id : option string;
  classes : list string;
  attributes : list string;
  pseudoClasses : list string;
  pseudoElements : list string;
}.

Definition set_element (v : option string) (p : t) : t :=
  mk v (id p) (classes p) (attributes p) (pseudoClasses p) (pseudoElements p).

Definition set_id (v : option string) (p : t) : t :=
  mk (element p) v (classes p) (attributes p) (pseudoClasses p) (pseudoElements p).

Definition set_classes (l : list string) (p : t) : t :=
  mk (element p) (id p) l (attributes p) (pseudoClasses p) (pseudoElements p).

Definition set_attributes (l : list string) (p : t) : t :=
  mk (element p) (id p) (classes p) l (pseudoClasses p) (pseudoElements p).

Definition set_pseudoClasses (l : list string) (p : t) : t :=
  mk (element p) (id p) (classes p) (attributes p) l (pseudoElements p).

Definition set_pseudoElements (l : list string) (p : t) : t :=
  mk (element p) (id p) (classes p) (attributes p) (pseudoClasses p) l.

End Parts.

(** ** Instances of [CSSSelector], the heap, and computations *)

Record object : Set := Object {
  parts : Parts.t;
  order : list Key.t;
}.

Definition set_parts (f : Parts.t → Parts.t) (o : object) : object :=
  Object (f (parts o)) (order o).

Definition set_order (l : list Key.t) (o : object) : object :=
  Object (parts o) l.

Definition loc : Set := nat.

Abbreviation heap := (gmap loc object).

(** The two [throw new Error(...)] of the class, told apart by their message:
    'Element, id and pseudo-element should not occur more then one time
    inside the selector' and 'Selector parts should be arranged in the
    following order: ...'. *)
Inductive error : Set :=
  | DuplicateFragmentError
  | OrderError.

Inductive result (A : Type) : Type :=
  | Return (a : A)
  | Throw (e : error).
Arguments Return {A} a.
Arguments Throw {A} e.

(** A computation runs on a heap; it yields the heap it leaves behind and
    either a value or the exception thrown.  [None] is reserved for a
    dereference outside the heap, which no JavaScript program can perform. *)
Definition M (A : Type) : Type := heap → option (heap * result A).

#[global] Instance M_ret : MRet M := λ A a h, Some (h, Return a).

#[global] Instance M_bind : MBind M := λ A B f m h,
  match m h with
  | Some (h', Return a) => f a h'
  | Some (h', Throw e) => Some (h', Throw e)
  | None => None
  end.

#[global] Instance M_throw : MThrow error M := λ A e h, Some (h, Throw e).

(** Read the object [l] points to. *)
Definition get (l : loc) : M object := λ h,
  match h !! l with
  | Some o => Some (h, Return o)
  | None => None
  end.

(** Overwrite the object [l] points to. *)
Definition put (l : loc) (o : object) : M unit := λ h,
  Some (<[l := o]> h, Return tt).

(** [new]: a location the heap does not use yet. *)
Definition alloc (o : object) : M loc := λ h,
  let l := fresh (dom h) in Some (<[l := o]> h, Return l).

(** JavaScript's ToBoolean on a slot: [null] and the empty string are falsy,
    every other string is truthy. *)
Definition truthy (v : option string) : bool :=
  match v with
  | Some (String _ _) => true
  | Some EmptyString => false
  | None => false
  end.

(** [array.join('')] on an array of strings. *)
Definition join (l : list string) : string := String.concat "" l.

(** ** class CSSSelector *)

Module CSSSelector.

(** [constructor()] *)
Definition constructor : object :=
  Object (Parts.mk None None [] [] [] []) [].

(** [new CSSSelector()] *)
Definition new : M loc := alloc constructor.

(** The constant [orderMap] of [checkOrder]. *)
Definition orderMap (part : Key.t) : Z :=
  match part with
  | Key.element => 1
  | Key.id => 2
  | Key.classes => 3
  | Key.attributes => 4
  | Key.pseudoClasses => 5
  | Key.pseudoElements => 6
  end.

(** [checkOrder(part)].  [this.order[this.order.length - 1]] is read only
    when the array is not empty ([&&] short-circuits). *)
Definition checkOrder (this : loc) (part : Key.t) : M unit :=
  o ← get this;
  if bool_decide (0 < length (order o))%nat &&
     match order o !! (length (order o) - 1)%nat with
     | Some l => bool_decide (orderMap part < orderMap l)
     | None => false
     end
  then mthrow OrderError
  else put this (set_order (order o ++ [part]) o).

Definition element (this : loc) (value : string) : M loc :=
  o ← get this;
  if truthy (Parts.element (parts o)) then mthrow DuplicateFragmentError
  else
    checkOrder this Key.element;;
    o ← get this;
    put this (set_parts (Parts.set_element (Some value)) o);;
    mret this.

Definition id (this : loc) (value : string) : M loc :=
  o ← get this;
  if truthy (Parts.id (parts o)) then mthrow DuplicateFragmentError
  else
    checkOrder this Key.id;;
    o ← get this;
    put this (set_parts (Parts.set_id (Some value)) o);;
    mret this.

Definition class (this : loc) (value : string) : M loc :=
  checkOrder this Key.classes;;
  o ← get this;
  put this (set_parts
    (Parts.set_classes (Parts.classes (parts o) ++ [value])) o);;
  mret this.

Definition attr (this : loc) (value : string) : M loc :=
  checkOrder this Key.attributes;;
  o ← get this;
  put this (set_parts
    (Parts.set_attributes (Parts.attributes (parts o) ++ [value])) o);;
  mret this.

Definition pseudoClass (this : loc) (value : string) : M loc :=
  checkOrder this Key.pseudoClasses;;
  o ← get this;
  put this (set_parts
    (Parts.set_pseudoClasses (Parts.pseudoClasses (parts o) ++ [value])) o);;
  mret this.

Definition pseudoElement (this : loc) (value : string) : M loc :=
  o ← get this;
  if bool_decide (0 < length (Parts.pseudoElements (parts o)))%nat
  then mthrow DuplicateFragmentError
  else
    checkOrder this Key.pseudoElements;;
    o ← get this;
    put this (set_parts
      (Parts.set_pseudoElements (Parts.pseudoElements (parts o) ++ [value])) o);;
    mret this.

(** [stringify()]: the local array [parts] grows by [push], then is joined. *)
Definition stringify (this : loc) : M string :=
  o ← get this;
  let p := parts o in
  let parts0 : list string := [] in
  let parts1 :=
    if truthy (Parts.element p)
    then parts0 ++ [default "" (Parts.element p)] else parts0 in
  let parts2 :=
    if truthy (Parts.id p)
    then parts1 ++ ["#" +:+ default "" (Parts.id p)] else parts1 in
  let parts3 := parts2 ++ ((λ className, "." +:+ className) <$> Parts.classes p) in
  let parts4 := parts3 ++ ((λ attribute, "[" +:+ attribute +:+ "]") <$> Parts.attributes p) in
  let parts5 := parts4 ++ ((λ pseudoClass, ":" +:+ pseudoClass) <$> Parts.pseudoClasses p) in
  let parts6 := parts5 ++ ((λ pseudoElement, "::" +:+ pseudoElement) <$> Parts.pseudoElements p) in
  mret (join parts6).

End CSSSelector.

(** ** const cssSelectorBuilder *)

Module cssSelectorBuilder.

Definition element (value : string) : M loc :=
  this ← CSSSelector.new; CSSSelector.element this value.

Definition id (value : string) : M loc :=
  this ← CSSSelector.new; CSSSelector.id this value.

Definition class (value : string) : M loc :=
  this ← CSSSelector.new; CSSSelector.class this value.

Definition attr (value : string) : M loc :=
  this ← CSSSelector.new; CSSSelector.attr this value.

Definition pseudoClass (value : string) : M loc :=
  this ← CSSSelector.new; CSSSelector.pseudoClass this value.

Definition pseudoElement (value : string) : M loc :=
  this ← CSSSelector.new; CSSSelector.pseudoElement this value.

(** [combine]: the template literal evaluates [selector1.stringify()], then
    [selector2.stringify()], after [combined] was allocated; the result is
    assigned to [combined.parts.element] directly, [order] is not touched. *)
Definition combine (selector1 : loc) (combinator : string) (selector2 : loc)
    : M loc :=
  combined ← CSSSelector.new;
  s1 ← CSSSelector.stringify selector1;
  s2 ← CSSSelector.stringify selector2;
  o ← get combined;
  put combined (set_parts
    (Parts.set_element (Some (s1 +:+ " " +:+ combinator +:+ " " +:+ s2))) o);;
  mret combined.

End cssSelectorBuilder.

(** ** Chains of calls *)

(** A call of one of the six append methods: the key of the category the
    method appends to, and its argument. *)
Definition call : Set := Key.t * string.

Definition append (this : loc) (c : call) : M loc :=
  match c.1 with
  | Key.element => CSSSelector.element this c.2
  | Key.id => CSSSelector.id this c.2
  | Key.classes => CSSSelector.class this c.2
  | Key.attributes => CSSSelector.attr this c.2
  | Key.pseudoClasses => CSSSelector.pseudoClass this c.2
  | Key.pseudoElements => CSSSelector.pseudoElement this c.2
  end.

(** The factory entry point of the same category. *)
Definition from (c : call) : M loc :=
  match c.1 with
  | Key.element => cssSelectorBuilder.element c.2
  | Key.id => cssSelectorBuilder.id c.2
  | Key.classes => cssSelectorBuilder.class c.2
  | Key.attributes => cssSelectorBuilder.attr c.2
  | Key.pseudoClasses => cssSelectorBuilder.pseudoClass c.2
  | Key.pseudoElements => cssSelectorBuilder.pseudoElement c.2
  end.

(** [b.m1(v1).m2(v2)...]: each call is made on what the previous one
    returned; the first exception ends the chain. *)
Fixpoint chain (this : loc) (cs : list call) : M loc :=
  match cs with
  | [] => mret this
  | c :: cs => this' ← append this c; chain this' cs
  end.

(** [n] calls of [m] in a row, collecting what they return. *)
Fixpoint times {A} (n : nat) (m : M A) : M (list A) :=
  match n with
  | O => mret []
  | S n => a ← m; l ← times n m; mret (a :: l)
  end.

(** [try { m } catch (e) {}]: the caller goes on after an exception. *)
Definition catch {A} (m : M A) : M unit := λ h,
  match m h with
  | Some (h', _) => Some (h', Return ())
  | None => None
  end.

(** Calls made one after the other on the same builder, accepted or not. *)
Fixpoint tries (this : loc) (cs : list call) : M unit :=
  match cs with
  | [] => mret ()
  | c :: cs => catch (append this c);; tries this cs
  end.

(** ** The methods as functions on the object they work on *)

(** The guard at the head of [element], [id] and [pseudoElement]. *)
Definition occupied (k : Key.t) (o : object) : bool :=
  match k with
  | Key.element => truthy (Parts.element (parts o))
  | Key.id => truthy (Parts.id (parts o))
  | Key.pseudoElements =>
      bool_decide (0 < length (Parts.pseudoElements (parts o)))%nat
  | _ => false
  end.

(** The test of [checkOrder]. *)
Definition behind (k : Key.t) (o : object) : bool :=
  match last (order o) with
  | Some l => bool_decide (CSSSelector.orderMap k < CSSSelector.orderMap l)
  | None => false
  end.

(** The assignment or [push] that ends an append method. *)
Definition store (c : call) (p : Parts.t) : Parts.t :=
  match c.1 with
  | Key.element => Parts.set_element (Some c.2) p
  | Key.id => Parts.set_id (Some c.2) p
  | Key.classes => Parts.set_classes (Parts.classes p ++ [c.2]) p
  | Key.attributes => Parts.set_attributes (Parts.attributes p ++ [c.2]) p
  | Key.pseudoClasses =>
      Parts.set_pseudoClasses (Parts.pseudoClasses p ++ [c.2]) p
  | Key.pseudoElements =>
      Parts.set_pseudoElements (Parts.pseudoElements p ++ [c.2]) p
  end.

(** The object an accepted call leaves behind. *)
Definition accept (c : call) (o : object) : object :=
  Object (store c (parts o)) (order o ++ [c.1]).

(** What one call does to the object and how it ends. *)
Definition step (c : call) (o : object) : object * option error :=
  if occupied c.1 o then (o, Some DuplicateFragmentError)
  else if behind c.1 o then (o, Some OrderError)
  else (accept c o, None).

(** What a chain does to the object and how it ends. *)
Fixpoint steps (cs : list call) (o : object) : object * option error :=
  match cs with
  | [] => (o, None)
  | c :: cs =>
      match step c o with
      | (o', None) => steps cs o'
      | (o', Some e) => (o', Some e)
      end
  end.

(** A sequence of calls made on the same builder one after the other, each
    exception caught by the caller. *)
Fixpoint attempts (cs : list call) (o : object) : object :=
  match cs with
  | [] => o
  | c :: cs => attempts cs (step c o).1
  end.

(** The string [stringify] computes from an object. *)
Definition pick (v : option string) (prefix : string) : string :=
  if truthy v then prefix +:+ default "" v else "".

Definition cat (l : list string) : string := foldr String.append "" l.

Definition render (o : object) : string :=
  let p := parts o in
  pick (Parts.element p) "" +:+
  pick (Parts.id p) "#" +:+
  cat ((λ v, "." +:+ v) <$> Parts.classes p) +:+
  cat ((λ v, "[" +:+ v +:+ "]") <$> Parts.attributes p) +:+
  cat ((λ v, ":" +:+ v) <$> Parts.pseudoClasses p) +:+
  cat ((λ v, "::" +:+ v) <$> Parts.pseudoElements p).

(** The contribution of one category to that string. *)
Definition piece (k : Key.t) (o : object) : string :=
  let p := parts o in
  match k with
  | Key.element => pick (Parts.element p) ""
  | Key.id => pick (Parts.id p) "#"
  | Key.classes => cat ((λ v, "." +:+ v) <$> Parts.classes p)
  | Key.attributes => cat ((λ v, "[" +:+ v +:+ "]") <$> Parts.attributes p)
  | Key.pseudoClasses => cat ((λ v, ":" +:+ v) <$> Parts.pseudoClasses p)
  | Key.pseudoElements => cat ((λ v, "::" +:+ v) <$> Parts.pseudoElements p)
  end.

(** The rank of the last tag of [order], 0 when there is none. *)
Definition last_rank (o : object) : Z :=
  match last (order o) with
  | Some l => CSSSelector.orderMap l
  | None => 0
  end.

(** ** The rendering rule in the words of the specification *)

(** One fragment, as section 4.1 writes it: the element verbatim, [#]+id,
    [.]+class, [[]+attribute+[]], [:]+pseudo-class, [::]+pseudo-element. *)
Definition fragment (c : call) : string :=
  match c.1 with
  | Key.element => c.2
  | Key.id => "#" +:+ c.2
  | Key.classes => "." +:+ c.2
  | Key.attributes => "[" +:+ c.2 +:+ "]"
  | Key.pseudoClasses => ":" +:+ c.2
  | Key.pseudoElements => "::" +:+ c.2
  end.

(** The calls of category [k], in append order. *)
Definition of_category (k : Key.t) (cs : list call) : list call :=
  filter (λ c, c.1 = k) cs.

(** The six categories in their fixed order 1 to 6. *)
Definition categories : list Key.t :=
  [Key.element; Key.id; Key.classes; Key.attributes;
   Key.pseudoClasses; Key.pseudoElements].

(** The concatenation, category after category, of the fragments appended,
    with no separator. *)
Definition canonical (cs : list call) : string :=
  cat ((λ k, cat (fragment <$> of_category k cs)) <$> categories).

(** The combined string of section 4.3. *)
Definition combined_string (left_ combinator right_ : string) : string :=
  left_ +:+ " " +:+ combinator +:+ " " +:+ right_.

(** ** Concrete runs *)

Definition scenario : M string :=
  b ← cssSelectorBuilder.element "a";
  b ← CSSSelector.id b "x";
  b ← CSSSelector.class b "c1";
  b ← CSSSelector.class b "c2";
  b ← CSSSelector.attr b "href";
  b ← CSSSelector.pseudoClass b "hover";
  b ← CSSSelector.pseudoElement b "before";
  CSSSelector.stringify b.

Definition scenario_calls : list call :=
  [(Key.element, "a"); (Key.id, "x"); (Key.classes, "c1"); (Key.classes, "c2");
   (Key.attributes, "href"); (Key.pseudoClasses, "hover");
   (Key.pseudoElements, "before")].

(** [cssSelectorBuilder.combine(cssSelectorBuilder.class("a"), ">",
    cssSelectorBuilder.id("b"))] *)
Definition combine_example : M loc :=
  a ← cssSelectorBuilder.class "a";
  b ← cssSelectorBuilder.id "b";
  cssSelectorBuilder.combine a ">" b.

(** The object [combine] builds around the combined string. *)
Definition combined (str : string) : object :=
  set_parts (Parts.set_element (Some str)) CSSSelector.constructor.

(** The heap a program leaves behind when run on the empty heap. *)
Definition heap_of {A} (m : M A) : heap :=
  match m ∅ with
  | Some (h, _) => h
  | None => ∅
  end.

(** The heap after [cssSelectorBuilder.pseudoClass("hover")]; the builder is
    at location 0. *)
Definition hover_heap : heap := heap_of (cssSelectorBuilder.pseudoClass "hover").

(** The heap after [cssSelectorBuilder.class("a")] and
    [cssSelectorBuilder.id("b")]; the builders are at locations 0 and 1. *)
Definition ab_heap : heap :=
  heap_of (a ← cssSelectorBuilder.class "a"; cssSelectorBuilder.id "b").

(** The heap after [new CSSSelector()]; the builder is at location 0. *)
Definition new_heap : heap := heap_of CSSSelector.new.

(** [a] does not come after [b] in the order element, id, class, attribute,
    pseudo-class, pseudo-element. *)
Definition ranked : relation Key.t :=
  λ a b, CSSSelector.orderMap a ≤ CSSSelector.orderMap b.

#[local] Instance ranked_dec : RelDecision ranked.
Proof. unfold ranked. intros a b. apply _. Defined.

(** * The other tasks of [objects-tasks.js] *)

(** ** function sellTickets *)

(** [array.every(callback)] for a callback that reads and writes variables
    of the enclosing function, here the state [s]: the callback runs on the
    elements in order and [every] stops at the first [false]. *)
Fixpoint every {S A} (callback : A → S → S * bool) (array : list A) (s : S)
    : S * bool :=
  match array with
  | [] => (s, true)
  | x :: array =>
      let '(s', b) := callback x s in
      if b then every callback array s' else (s', false)
  end.

(** The arrow function passed to [every]; the state is [change].  Bills and
    change are integers; whatever is not 25, 50 or 100 ends in the last
    [return false]. *)
Definition sell (bill : Z) (change : Z) : Z * bool :=
  if bool_decide (bill = 25) then (change + 25, true)
  else if bool_decide (bill = 50) then
    if bool_decide (change < 25) then (change, false)
    else (change - 25, true)
  else if bool_decide (bill = 100) then
    if bool_decide (change < 75) then (change, false)
    else (change - 75, true)
  else (change, false).

Definition sellTickets (queue : list Z) : bool :=
  let change := 0 in
  (every sell queue change).2.

(** How many times [bill] occurs in [queue]. *)
Definition bills (bill : Z) (queue : list Z) : Z :=
  Z.of_nat (length (filter (λ b, b = bill) queue)).

(** ** function group *)

(** A JavaScript [Map] is kept as the list of its entries in insertion
    order, with distinct keys.  [Map.prototype.get]: *)
Fixpoint Map_get {K V} `{EqDecision K} (key : K) (m : list (K * V))
    : option V :=
  match m with
  | [] => None
  | (k, v) :: m => if decide (k = key) then Some v else Map_get key m
  end.

(** [Map.prototype.set]: the value of an existing key is replaced where it
    stands, a new key goes to the end. *)
Fixpoint Map_set {K V} `{EqDecision K} (key : K) (value : V) (m : list (K * V))
    : list (K * V) :=
  match m with
  | [] => [(key, value)]
  | (k, v) :: m =>
      if decide (k = key) then (k, value) :: m
      else (k, v) :: Map_set key value m
  end.

(** [multimap.get(key).push(value)]: the array stored under [key] grows in
    place. *)
Definition Map_push {K V} `{EqDecision K} (key : K) (value : V)
    (multimap : list (K * list V)) : list (K * list V) :=
  match Map_get key multimap with
  | Some array => Map_set key (array ++ [value]) multimap
  | None => multimap
  end.

(** [multimap.get(key)] is an array, hence truthy, or [undefined].  Keys
    are compared as [Map] compares them, here by a decidable equality; the
    two selectors are functions without effects. *)
Definition group {A K V} `{EqDecision K} (array : list A)
    (keySelector : A → K) (valueSelector : A → V) : list (K * list V) :=
  foldl (λ multimap item,
    let key := keySelector item in
    let value := valueSelector item in
    match Map_get key multimap with
    | Some _ => Map_push key value multimap
    | None => Map_push key value (Map_set key [] multimap)
    end) [] array.

(** ** function makeWord *)

(** [lettersObject] is given by its entries, in the order [Object.entries]
    lists them; positions are array indices.  [wordMap] has positions as
    keys, and [sort((a, b) => a - b)] puts them in increasing order. *)
Definition makeWord (lettersObject : list (string * list nat)) : string :=
  let wordMap : gmap nat string :=
    foldl (λ wordMap '(letter, positions),
      foldl (λ wordMap position, <[position := letter]> wordMap)
        wordMap positions) ∅ lettersObject in
  let sortedKeys := merge_sort (≤)%nat ((map_to_list wordMap).*1) in
  join ((λ key, wordMap !!! key) <$> sortedKeys).

(** ** function removeProperties *)

(** An object used as a dictionary is the finite map of its own enumerable
    properties.  [delete] does nothing when [key in objCopy] holds for an
    inherited property only. *)
Definition removeProperties {V} (obj : gmap string V) (keys : list string)
    : gmap string V :=
  let objCopy := obj in
  foldl (λ objCopy key,
    if bool_decide (is_Some (objCopy !! key)) then delete key objCopy
    else objCopy) objCopy keys.

(** ** function mergeObjects *)

(** [Object.fromEntries]: a later entry overwrites an earlier one. *)
Definition fromEntries {V} (entries : list (string * V)) : gmap string V :=
  foldl (λ obj e, <[e.1 := e.2]> obj) ∅ entries.

(** The body of the [forEach]: [is_number value] is
    [typeof value === 'number'] and [plus] is the [+] of [+=].  [find] and
    [findIndex] stop at the first entry whose key is [key]. *)
Definition merge_entry {V} (is_number : V → bool) (plus : V → V → V)
    (acc : list (string * V)) (e : string * V) : list (string * V) :=
  let '(key, value) := e in
  if bool_decide (is_Some (list_find (λ e, e.1 = key) acc)) && is_number value
  then
    match list_find (λ e, e.1 = key) acc with
    | Some (index, (k, v)) => <[index := (k, plus v value)]> acc
    | None => acc
    end
  else acc ++ [(key, value)].

(** Every object of [objects] is given by its entries, in the order
    [Object.entries] lists them. *)
Definition mergeObjects {V} (is_number : V → bool) (plus : V → V → V)
    (objects : list (list (string * V))) : gmap string V :=
  fromEntries
    (foldl (λ acc obj, foldl (merge_entry is_number plus) acc obj) [] objects).

(** * Properties *)

(** ** Strings *)

Lemma append_cons (x : Ascii.ascii) (a b : string) :
  String x a +:+ b = String x (a +:+ b).
Proof. reflexivity. Qed.

Lemma append_assoc (a b c : string) : (a +:+ b) +:+ c = a +:+ b +:+ c.
Proof.
  induction a as [|x a IH]; [done |].
  by rewrite !append_cons, IH.
Qed.

Lemma append_empty_r (a : string) : a +:+ "" = a.
Proof. induction a as [|x a IH]; [done |]. by rewrite append_cons, IH. Qed.

Lemma cat_app (l1 l2 : list string) : cat (l1 ++ l2) = cat l1 +:+ cat l2.
Proof.
  induction l1 as [|x l1 IH]; simpl; [done |].
  by rewrite IH, append_assoc.
Qed.

Lemma join_cat (l : list string) : join l = cat l.
Proof.
  unfold join. induction l as [|x l IH]; [done |].
  simpl. rewrite <- IH. destruct l; [by rewrite append_empty_r | done].
Qed.

(** ** Running computations *)

Lemma bind_run {A B} (m : M A) (f : A → M B) (h : heap) :
  (m ≫= f) h =
  match m h with
  | Some (h', Return a) => f a h'
  | Some (h', Throw e) => Some (h', Throw e)
  | None => None
  end.
Proof. reflexivity. Qed.

Lemma get_run (h : heap) l o : h !! l = Some o → get l h = Some (h, Return o).
Proof. intros E. unfold get. by rewrite E. Qed.

Lemma behind_test (k : Key.t) (o : object) :
  bool_decide (0 < length (order o))%nat &&
  match order o !! (length (order o) - 1)%nat with
  | Some l => bool_decide (CSSSelector.orderMap k < CSSSelector.orderMap l)
  | None => false
  end = behind k o.
Proof.
  unfold behind. rewrite last_lookup, Nat.sub_1_r.
  by destruct (order o) as [|x l].
Qed.

Lemma checkOrder_run (h : heap) this o k :
  h !! this = Some o →
  CSSSelector.checkOrder this k h =
  Some (if behind k o then (h, Throw OrderError)
        else (<[this := set_order (order o ++ [k]) o]> h, Return ())).
Proof.
  intros E. unfold CSSSelector.checkOrder.
  rewrite bind_run, (get_run _ _ _ E), behind_test.
  by destruct (behind k o).
Qed.

Lemma append_run (h : heap) this o c :
  h !! this = Some o →
  append this c h =
  Some (match step c o with
        | (o', None) => (<[this := o']> h, Return this)
        | (_, Some e) => (h, Throw e)
        end).
Proof.
  intros E. destruct c as [k v]. unfold append, step; simpl.
  destruct k; simpl;
    unfold CSSSelector.element, CSSSelector.id, CSSSelector.class,
      CSSSelector.attr, CSSSelector.pseudoClass, CSSSelector.pseudoElement;
    rewrite ?bind_run, ?(get_run _ _ _ E);
    try match goal with
        | |- context [if ?b then mthrow _ else _] => destruct b; [done |]
        end;
    rewrite ?bind_run, (checkOrder_run _ _ _ _ E);
    (destruct (behind _ o); [done |]);
    rewrite bind_run, (get_run _ this (set_order _ o))
      by apply lookup_insert_eq;
    rewrite bind_run; unfold put, accept; simpl;
    by rewrite insert_insert_eq.
Qed.

Lemma append_stuck (h : heap) this c : h !! this = None → append this c h = None.
Proof.
  intros E. destruct c as [[] v]; unfold append; simpl;
    unfold CSSSelector.element, CSSSelector.id, CSSSelector.class,
      CSSSelector.attr, CSSSelector.pseudoClass, CSSSelector.pseudoElement,
      CSSSelector.checkOrder;
    rewrite ?bind_run; unfold get; by rewrite E.
Qed.

Lemma stringify_run (h : heap) this o :
  h !! this = Some o →
  CSSSelector.stringify this h = Some (h, Return (render o)).
Proof.
  intros E. unfold CSSSelector.stringify.
  rewrite bind_run, (get_run _ _ _ E). unfold mret, M_ret.
  do 3 f_equal. rewrite join_cat, !cat_app. unfold render, pick.
  destruct (truthy (Parts.element (parts o))),
    (truthy (Parts.id (parts o))); simpl;
    by rewrite ?append_empty_r, ?append_assoc.
Qed.

Lemma stringify_stuck (h : heap) this :
  h !! this = None → CSSSelector.stringify this h = None.
Proof.
  intros E. unfold CSSSelector.stringify. rewrite bind_run. unfold get.
  by rewrite E.
Qed.

Lemma new_fresh (h : heap) : h !! fresh (dom h) = None.
Proof. apply not_elem_of_dom, is_fresh. Qed.

Lemma new_run (h : heap) :
  CSSSelector.new h =
  Some (<[fresh (dom h) := CSSSelector.constructor]> h, Return (fresh (dom h))).
Proof. reflexivity. Qed.

Lemma step_rejects c o o' e : step c o = (o', Some e) → o' = o.
Proof.
  unfold step. destruct (occupied c.1 o); [congruence |].
  destruct (behind c.1 o); congruence.
Qed.

Lemma chain_run (h : heap) this o cs :
  h !! this = Some o →
  chain this cs h =
  Some (<[this := (steps cs o).1]> h,
        match (steps cs o).2 with
        | None => Return this
        | Some e => Throw e
        end).
Proof.
  revert h o. induction cs as [|c cs IH]; intros h o E; simpl.
  - by rewrite insert_id.
  - rewrite bind_run, (append_run _ _ _ _ E).
    destruct (step c o) as [o1 [e|]] eqn:E1; simpl.
    + by rewrite (step_rejects _ _ _ _ E1), insert_id.
    + rewrite (IH _ o1) by apply lookup_insert_eq.
      by rewrite insert_insert_eq.
Qed.

Lemma tries_run (h : heap) this o cs :
  h !! this = Some o →
  tries this cs h = Some (<[this := attempts cs o]> h, Return ()).
Proof.
  revert h o. induction cs as [|c cs IH]; intros h o E; simpl.
  - by rewrite insert_id.
  - rewrite bind_run. unfold catch. rewrite (append_run _ _ _ _ E).
    destruct (step c o) as [o1 [e|]] eqn:E1; simpl.
    + rewrite (step_rejects _ _ _ _ E1). by apply IH.
    + rewrite (IH _ o1) by apply lookup_insert_eq.
      by rewrite insert_insert_eq.
Qed.

(** ** Rendering follows the calls *)

Lemma render_pieces (o : object) :
  render o = cat ((λ k, piece k o) <$> categories).
Proof. unfold render. simpl. by rewrite append_empty_r. Qed.

Lemma piece_constructor (k : Key.t) : piece k CSSSelector.constructor = "".
Proof. by destruct k. Qed.

Lemma pick_falsy (v : option string) (prefix : string) :
  truthy v = false → pick v prefix = "".
Proof. unfold pick. by intros ->. Qed.

Lemma step_piece c o o' k :
  step c o = (o', None) →
  c ≠ (Key.id, "") →
  piece k o' = piece k o +:+ (if decide (c.1 = k) then fragment c else "").
Proof.
  destruct c as [kc v]. unfold step. simpl.
  destruct (occupied kc o) eqn:Eo; [done |].
  destruct (behind kc o); [done |]. intros [= <-] Hv.
  destruct kc, k; simpl; rewrite ?append_empty_r; try done.
  - rewrite (pick_falsy _ _ Eo). by destruct v.
  - rewrite (pick_falsy _ _ Eo). by destruct v.
  - by rewrite fmap_app, cat_app; simpl; rewrite append_empty_r.
  - by rewrite fmap_app, cat_app; simpl; rewrite append_empty_r.
  - by rewrite fmap_app, cat_app; simpl; rewrite append_empty_r.
  - by rewrite fmap_app, cat_app; simpl; rewrite append_empty_r.
Qed.

Lemma steps_piece cs o o' k :
  steps cs o = (o', None) →
  (Key.id, "") ∉ cs →
  piece k o' = piece k o +:+ cat (fragment <$> of_category k cs).
Proof.
  revert o. induction cs as [|c cs IH]; intros o; simpl.
  - intros [= <-] _. by rewrite append_empty_r.
  - destruct (step c o) as [o1 [e|]] eqn:E1; [done |].
    intros E Hcs. apply not_elem_of_cons in Hcs as [Hc Hcs].
    rewrite (IH _ E Hcs), (step_piece _ _ _ k E1) by done.
    unfold of_category. rewrite filter_cons.
    destruct (decide (c.1 = k)); simpl.
    + by rewrite append_assoc.
    + by rewrite append_empty_r.
Qed.

Lemma steps_canonical cs o' :
  steps cs CSSSelector.constructor = (o', None) →
  (Key.id, "") ∉ cs →
  render o' = canonical cs.
Proof.
  intros E Hcs. rewrite render_pieces. unfold canonical. f_equal.
  apply list_fmap_ext. intros _ k _.
  by rewrite (steps_piece _ _ _ k E Hcs), piece_constructor.
Qed.

Lemma bind_assoc {A B C} (m : M A) (f : A → M B) (g : B → M C) (h : heap) :
  ((m ≫= f) ≫= g) h = (m ≫= λ a, f a ≫= g) h.
Proof. rewrite !bind_run. by destruct (m h) as [[h' [a|e]]|]. Qed.

Lemma bind_ext {A B} (m : M A) (f g : A → M B) (h : heap) :
  (∀ a h', f a h' = g a h') → (m ≫= f) h = (m ≫= g) h.
Proof. intros E. rewrite !bind_run. by destruct (m h) as [[h' [a|e]]|]. Qed.

Lemma build_run (h : heap) cs :
  (this ← CSSSelector.new; chain this cs) h =
  Some (<[fresh (dom h) := (steps cs CSSSelector.constructor).1]> h,
        match (steps cs CSSSelector.constructor).2 with
        | None => Return (fresh (dom h))
        | Some e => Throw e
        end).
Proof.
  rewrite bind_run, new_run.
  rewrite (chain_run _ _ CSSSelector.constructor) by apply lookup_insert_eq.
  by rewrite insert_insert_eq.
Qed.

Lemma scenario_chain (h : heap) :
  scenario h =
  (b ← (this ← CSSSelector.new; chain this scenario_calls);
   CSSSelector.stringify b) h.
Proof.
  unfold scenario, cssSelectorBuilder.element, scenario_calls, chain.
  rewrite !bind_assoc.
  repeat (apply bind_ext; intros ? ?; rewrite ?bind_assoc).
  reflexivity.
Qed.

Lemma factory_chain (h : heap) c cs :
  (b ← from c; chain b cs) h = (this ← CSSSelector.new; chain this (c :: cs)) h.
Proof.
  transitivity ((b ← (this ← CSSSelector.new; append this c); chain b cs) h).
  - by destruct c as [[] v].
  - by rewrite bind_assoc.
Qed.

(** C1 at [cssSelectorBuilder.id("").stringify()]: the call [id("")] is
    accepted, the rule of the specification gives [#] for it, and
    [stringify] returns the empty string: its test [if (this.parts.id)]
    takes the empty id for no id, where the class, attribute, pseudo-class
    and pseudo-element paths render their prefix for an empty value. *)
Lemma empty_id_not_rendered :
  ∃ (h' : heap) b,
    (this ← CSSSelector.new; chain this [(Key.id, "")]) ∅ = Some (h', Return b) ∧
    CSSSelector.stringify b h' = Some (h', Return "") ∧
    canonical [(Key.id, "")] = "#" ∧
    CSSSelector.stringify b h' ≠ Some (h', Return (canonical [(Key.id, "")])).
Proof.
  eexists _, _. split; [vm_compute; reflexivity |].
  split; [vm_compute; reflexivity |].
  split; [reflexivity |]. vm_compute. discriminate.
Qed.

(** Where C1 holds: for every sequence of append calls accepted by a builder
    in which no id is the empty string (the empty sequence included),
    [stringify] returns exactly the concatenation, in the fixed category
    order 1 to 6, of the element verbatim, [#]+id, [.]+each class in append
    order, [[]+each attribute+[]], [:]+each pseudo-class, [::]+each
    pseudo-element, with no separators; a builder with zero appends renders
    to the empty string; the chain
    [fromElement("a").id("x").class("c1").class("c2").attr("href")
     .pseudoClass("hover").pseudoElement("before")]
    renders to [a#x.c1.c2[href]:hover::before]. *)
Theorem stringify_canonical :
  (∀ (h h' : heap) cs b,
     (this ← CSSSelector.new; chain this cs) h = Some (h', Return b) →
     (Key.id, "") ∉ cs →
     CSSSelector.stringify b h' = Some (h', Return (canonical cs))) ∧
  (∀ h : heap,
     ∃ h', (this ← CSSSelector.new; CSSSelector.stringify this) h =
           Some (h', Return "")) ∧
  (∀ h : heap,
     ∃ h', scenario h = Some (h', Return "a#x.c1.c2[href]:hover::before")).
Proof.
  assert (∀ (h h' : heap) cs b,
     (this ← CSSSelector.new; chain this cs) h = Some (h', Return b) →
     (Key.id, "") ∉ cs →
     CSSSelector.stringify b h' = Some (h', Return (canonical cs))) as General.
  { intros h h' cs b E Hcs. rewrite build_run in E.
    destruct (steps cs CSSSelector.constructor) as [o' [e|]] eqn:Es;
      simpl in E; [done |].
    injection E as <- <-.
    rewrite (stringify_run _ _ o') by apply lookup_insert_eq.
    by rewrite (steps_canonical _ _ Es Hcs). }
  split; [exact General |]. split.
  - intros h. eexists. rewrite bind_run, new_run.
    by rewrite (stringify_run _ _ CSSSelector.constructor)
      by apply lookup_insert_eq.
  - intros h. eexists. rewrite scenario_chain, bind_run, build_run.
    let s := eval vm_compute in (steps scenario_calls CSSSelector.constructor)
    in change (steps scenario_calls CSSSelector.constructor) with s.
    cbv beta iota delta [fst snd].
    erewrite stringify_run by apply lookup_insert_eq.
    reflexivity.
Qed.

Lemma stringify_canonical_witness :
  ∃ h' : heap,
    (this ← CSSSelector.new; chain this scenario_calls) ∅ = Some (h', Return O) ∧
    ((Key.id, "") ∉ scenario_calls) ∧
    CSSSelector.stringify O h' =
      Some (h', Return "a#x.c1.c2[href]:hover::before").
Proof.
  eexists. split; [vm_compute; reflexivity |].
  split; [compute_done |].
  apply (proj1 stringify_canonical ∅ _ scenario_calls O).
  - vm_compute; reflexivity.
  - compute_done.
Defined.

(** ** Rejected calls *)

Lemma step_occupied c o :
  occupied c.1 o = true → step c o = (o, Some DuplicateFragmentError).
Proof. unfold step. by intros ->. Qed.

(** C4: whenever an append operation raises [DuplicateFragmentError] or
    [OrderError], the heap after the call is the heap before it: the state
    of the builder ([element], [id], [classes], [attributes],
    [pseudoClasses], [pseudoElements] and [order]) is exactly what it was,
    the rejected fragment is not applied, in whole or in part. *)
Theorem rejected_append_leaves_state (h h' : heap) this c e :
  append this c h = Some (h', Throw e) → h' = h ∧ h' !! this = h !! this.
Proof.
  destruct (h !! this) as [o|] eqn:E.
  - rewrite (append_run _ _ _ _ E).
    destruct (step c o) as [o' [e'|]]; intros [= <- _]; by rewrite ?E.
  - by rewrite (append_stuck _ _ _ E).
Qed.

Lemma rejected_append_leaves_state_witness :
  ∃ h', append O (Key.classes, "a") hover_heap = Some (h', Throw OrderError) ∧
        h' = hover_heap ∧ h' !! O = hover_heap !! O.
Proof.
  eexists. split; [vm_compute; reflexivity |].
  apply (rejected_append_leaves_state _ _ O (Key.classes, "a") OrderError).
  vm_compute; reflexivity.
Defined.

(** ** The order check *)

Lemma behind_accept c0 o k :
  behind k (accept c0 o) =
  bool_decide (CSSSelector.orderMap k < CSSSelector.orderMap c0.1).
Proof. unfold behind, accept. simpl. by rewrite last_snoc. Qed.

Lemma accepted_append (h h0 : heap) this b c0 :
  append this c0 h = Some (h0, Return b) →
  ∃ o, h !! this = Some o ∧ step c0 o = (accept c0 o, None) ∧
       b = this ∧ h0 = <[this := accept c0 o]> h.
Proof.
  destruct (h !! this) as [o|] eqn:E.
  - rewrite (append_run _ _ _ _ E). intros E'. exists o.
    unfold step in *. destruct (occupied c0.1 o); [done |].
    destruct (behind c0.1 o); [done |]. by injection E' as <- <-.
  - by rewrite (append_stuck _ _ _ E).
Qed.







(** ** The factory *)

Lemma step_constructor c :
  step c CSSSelector.constructor = (accept c CSSSelector.constructor, None).
Proof. by destruct c as [[] v]. Qed.

Lemma from_run (h : heap) c :
  from c h =
  Some (<[fresh (dom h) := accept c CSSSelector.constructor]> h,
        Return (fresh (dom h))).
Proof.
  transitivity ((this ← CSSSelector.new; append this c) h).
  { by destruct c as [[] v]. }
  rewrite bind_run, new_run.
  rewrite (append_run _ _ CSSSelector.constructor) by apply lookup_insert_eq.
  by rewrite step_constructor, insert_insert_eq.
Qed.

(** C7: for every value [v], none of the six factory entry points raises
    an error: each returns a builder that did not exist before, the first
    append on it triggers neither a duplicate check nor the order check. *)
Theorem factory_never_fails (v : string) (h : heap) :
  (∃ h' b, cssSelectorBuilder.element v h = Some (h', Return b) ∧ h !! b = None) ∧
  (∃ h' b, cssSelectorBuilder.id v h = Some (h', Return b) ∧ h !! b = None) ∧
  (∃ h' b, cssSelectorBuilder.class v h = Some (h', Return b) ∧ h !! b = None) ∧
  (∃ h' b, cssSelectorBuilder.attr v h = Some (h', Return b) ∧ h !! b = None) ∧
  (∃ h' b, cssSelectorBuilder.pseudoClass v h = Some (h', Return b) ∧
           h !! b = None) ∧
  (∃ h' b, cssSelectorBuilder.pseudoElement v h = Some (h', Return b) ∧
           h !! b = None).
Proof.
  pose proof (λ k, from_run h (k, v)) as Run.
  repeat split; eexists _, _;
    (split; [| apply new_fresh]).
  - apply (Run Key.element).
  - apply (Run Key.id).
  - apply (Run Key.classes).
  - apply (Run Key.attributes).
  - apply (Run Key.pseudoClasses).
  - apply (Run Key.pseudoElements).
Qed.

(** ** [stringify] reads, and does nothing else *)

Lemma times_stringify (h : heap) this o n :
  h !! this = Some o →
  times n (CSSSelector.stringify this) h =
  Some (h, Return (replicate n (render o))).
Proof.
  intros E. induction n as [|n IH]; simpl; [done |].
  rewrite bind_run, (stringify_run _ _ _ E), bind_run, IH. done.
Qed.

(** C8: [stringify] is pure and idempotent: on every builder it returns a
    string and leaves the heap, hence the state of the builder, as it was;
    called any number of times in a row it returns that same string each
    time, and the heap is still unchanged. *)
Theorem stringify_pure (h : heap) this o :
  h !! this = Some o →
  ∃ s, CSSSelector.stringify this h = Some (h, Return s) ∧
       ∀ n, times n (CSSSelector.stringify this) h =
            Some (h, Return (replicate n s)).
Proof.
  intros E. exists (render o). split.
  - by apply stringify_run.
  - intros n. by apply times_stringify.
Qed.

Lemma stringify_pure_witness :
  hover_heap !! O =
    Some (Object (Parts.mk None None [] [] ["hover"] []) [Key.pseudoClasses]) ∧
  ∃ s, CSSSelector.stringify O hover_heap = Some (hover_heap, Return s) ∧
       ∀ n, times n (CSSSelector.stringify O) hover_heap =
            Some (hover_heap, Return (replicate n s)).
Proof.
  split; [vm_compute; reflexivity |].
  eapply stringify_pure. vm_compute; reflexivity.
Defined.

(** ** The combinator *)

Lemma truthy_combined (a s b : string) :
  truthy (Some (combined_string a s b)) = true.
Proof. by destruct a. Qed.

Lemma render_combined (str : string) :
  truthy (Some str) = true → render (combined str) = str.
Proof.
  destruct str as [|x str]; [done |]. intros _.
  unfold render, combined, pick. simpl.
  by rewrite !append_empty_r.
Qed.

Lemma stringify_cases (h : heap) this :
  CSSSelector.stringify this h = None ∨
  ∃ s, CSSSelector.stringify this h = Some (h, Return s).
Proof.
  destruct (h !! this) as [o|] eqn:E.
  - right. exists (render o). by apply stringify_run.
  - left. by apply stringify_stuck.
Qed.

Lemma stringify_inv (h h1 : heap) this s :
  CSSSelector.stringify this h = Some (h1, Return s) →
  ∃ o, h !! this = Some o ∧ h1 = h ∧ s = render o.
Proof.
  destruct (h !! this) as [o|] eqn:E.
  - rewrite (stringify_run _ _ _ E). intros [= <- <-]. eauto.
  - by rewrite (stringify_stuck _ _ E).
Qed.

Lemma combine_inv (h h' : heap) left_ s right_ c :
  cssSelectorBuilder.combine left_ s right_ h = Some (h', Return c) →
  ∃ sl sr, c = fresh (dom h) ∧
           h' = <[c := combined (combined_string sl s sr)]> h.
Proof.
  unfold cssSelectorBuilder.combine. rewrite bind_run, new_run, bind_run.
  destruct (stringify_cases
    (<[fresh (dom h) := CSSSelector.constructor]> h) left_)
    as [-> | [sl ->]]; [done |].
  rewrite bind_run.
  destruct (stringify_cases
    (<[fresh (dom h) := CSSSelector.constructor]> h) right_)
    as [-> | [sr ->]]; [done |].
  rewrite bind_run, (get_run _ _ CSSSelector.constructor)
    by apply lookup_insert_eq.
  rewrite bind_run. unfold put. simpl. intros [= <- <-].
  exists sl, sr. by rewrite insert_insert_eq.
Qed.

Lemma combine_run (h : heap) left_ s right_ ol or :
  h !! left_ = Some ol →
  h !! right_ = Some or →
  cssSelectorBuilder.combine left_ s right_ h =
  Some (<[fresh (dom h) := combined (combined_string (render ol) s (render or))]> h,
        Return (fresh (dom h))).
Proof.
  intros El Er. pose proof (new_fresh h) as Ec.
  unfold cssSelectorBuilder.combine. rewrite bind_run, new_run, bind_run.
  rewrite (stringify_run _ _ ol), bind_run, (stringify_run _ _ or).
  - rewrite bind_run, (get_run _ _ CSSSelector.constructor)
      by apply lookup_insert_eq.
    rewrite bind_run. unfold put. simpl. by rewrite insert_insert_eq.
  - rewrite lookup_insert_ne; [done | congruence].
  - rewrite lookup_insert_ne; [done | congruence].
Qed.

Lemma combine_example_run (h : heap) :
  ∃ h' c, combine_example h = Some (h', Return c) ∧
          CSSSelector.stringify c h' = Some (h', Return ".a > #b").
Proof.
  unfold combine_example.
  change (cssSelectorBuilder.class "a") with (from (Key.classes, "a")).
  change (cssSelectorBuilder.id "b") with (from (Key.id, "b")).
  rewrite bind_run, from_run, bind_run, from_run.
  set (a := fresh (dom h)).
  set (h1 := <[a := accept (Key.classes, "a") CSSSelector.constructor]> h).
  set (b := fresh (dom h1)).
  set (h2 := <[b := accept (Key.id, "b") CSSSelector.constructor]> h1).
  assert (h1 !! a = Some (accept (Key.classes, "a") CSSSelector.constructor))
    as Ea by apply lookup_insert_eq.
  assert (a ≠ b) as Hab.
  { intros Hab. pose proof (new_fresh h1) as Eb. fold b in Eb. congruence. }
  eexists _, _. split.
  - apply combine_run.
    + unfold h2. by rewrite lookup_insert_ne.
    + apply lookup_insert_eq.
  - by rewrite (stringify_run _ _ _ (lookup_insert_eq _ _ _)).
Qed.

(** C5: for all selectors [left_] and [right_] and every combinator string
    [s], [combine(left_, s, right_)] returns a new selector, leaves every
    other object as it was, and the new selector renders to exactly
    [render(left_) + " " + s + " " + render(right_)]: the combinator is
    embedded verbatim, no validation; in particular
    [combine(fromClass("a"), ">", fromId("b"))] renders to [.a > #b]. *)
Theorem combine_renders :
  (∀ (h h1 h2 : heap) left_ right_ s sl sr,
     CSSSelector.stringify left_ h = Some (h1, Return sl) →
     CSSSelector.stringify right_ h = Some (h2, Return sr) →
     ∃ h' c,
       cssSelectorBuilder.combine left_ s right_ h = Some (h', Return c) ∧
       h !! c = None ∧
       (∀ l, l ≠ c → h' !! l = h !! l) ∧
       CSSSelector.stringify c h' =
         Some (h', Return (sl +:+ " " +:+ s +:+ " " +:+ sr))) ∧
  (∀ h : heap,
     ∃ h' c, combine_example h = Some (h', Return c) ∧
             CSSSelector.stringify c h' = Some (h', Return ".a > #b")).
Proof.
  split; [| exact combine_example_run].
  intros h h1 h2 left_ right_ s sl sr El Er.
  apply stringify_inv in El as (ol & El & _ & ->).
  apply stringify_inv in Er as (or & Er & _ & ->).
  eexists _, _. split; [by apply combine_run |].
  split; [apply new_fresh |]. split.
  - intros l Hl. by rewrite lookup_insert_ne.
  - rewrite (stringify_run _ _ _ (lookup_insert_eq _ _ _)).
    by rewrite render_combined by apply truthy_combined.
Qed.

Lemma combine_renders_witness :
  CSSSelector.stringify 0%nat ab_heap = Some (ab_heap, Return ".a") ∧
  CSSSelector.stringify 1%nat ab_heap = Some (ab_heap, Return "#b") ∧
  ∃ h' c,
    cssSelectorBuilder.combine 0%nat ">" 1%nat ab_heap = Some (h', Return c) ∧
    ab_heap !! c = None ∧
    (∀ l, l ≠ c → h' !! l = ab_heap !! l) ∧
    CSSSelector.stringify c h' =
      Some (h', Return (".a" +:+ " " +:+ ">" +:+ " " +:+ "#b")).
Proof.
  split; [vm_compute; reflexivity |]. split; [vm_compute; reflexivity |].
  apply (proj1 combine_renders ab_heap ab_heap ab_heap 0%nat 1%nat ">").
  - vm_compute; reflexivity.
  - vm_compute; reflexivity.
Defined.

(** C6 fails as stated: on the selector that
    [combine(fromClass("a"), ">", fromId("b"))] returns, [element("div")]
    raises [DuplicateFragmentError]. *)
Lemma combined_element_rejected :
  ∃ (h' : heap) c,
    combine_example ∅ = Some (h', Return c) ∧
    CSSSelector.element c "div" h' = Some (h', Throw DuplicateFragmentError) ∧
    ¬ ∃ h'', CSSSelector.element c "div" h' = Some (h'', Return c).
Proof.
  eexists _, _. split; [vm_compute; reflexivity |].
  split; [vm_compute; reflexivity |].
  intros [h'' E]. vm_compute in E. discriminate.
Qed.

(** C6, amended: a selector produced by [combine] rejects every further
    [.element(...)] append with [DuplicateFragmentError]: the combined
    string, which is never empty, is stored in the element slot of a fresh
    instance, and the history of that instance is empty (category 1 is not
    recorded). *)
Theorem combined_rejects_element (h h' : heap) left_ s right_ c v :
  cssSelectorBuilder.combine left_ s right_ h = Some (h', Return c) →
  CSSSelector.element c v h' = Some (h', Throw DuplicateFragmentError) ∧
  ∃ o, h' !! c = Some o ∧ h !! c = None ∧ order o = [] ∧
       truthy (Parts.element (parts o)) = true.
Proof.
  intros E. apply combine_inv in E as (sl & sr & -> & ->).
  pose proof (truthy_combined sl s sr) as Et. split.
  - change (CSSSelector.element ?b v) with (append b (Key.element, v)).
    rewrite (append_run _ _ _ _ (lookup_insert_eq _ _ _)).
    by rewrite step_occupied.
  - eexists. split; [apply lookup_insert_eq |].
    split; [apply new_fresh |]. done.
Qed.

Lemma combined_rejects_element_witness :
  ∃ h' : heap,
    cssSelectorBuilder.combine 0%nat ">" 1%nat ab_heap = Some (h', Return 2%nat) ∧
    CSSSelector.element 2%nat "div" h' = Some (h', Throw DuplicateFragmentError).
Proof.
  eexists. split; [vm_compute; reflexivity |].
  eapply (combined_rejects_element ab_heap _ 0%nat ">" 1%nat 2%nat "div").
  vm_compute; reflexivity.
Defined.

(** C9 at [combine(fromClass("a"), ">", fromId("b")).id("").stringify()]:
    on the combined selector [id("")] is accepted, and the rendering stays
    [.a > #b]: the fragment [#] of that id is not rendered, by the same test
    [if (this.parts.id)] of [stringify]. *)
Lemma combined_empty_id_not_rendered :
  ∃ (h' h'' : heap) c,
    combine_example ∅ = Some (h', Return c) ∧
    CSSSelector.stringify c h' = Some (h', Return ".a > #b") ∧
    CSSSelector.id c "" h' = Some (h'', Return c) ∧
    CSSSelector.stringify c h'' = Some (h'', Return ".a > #b") ∧
    CSSSelector.stringify c h'' ≠
      Some (h'', Return (".a > #b" +:+ fragment (Key.id, ""))).
Proof.
  eexists _, _, _. split; [vm_compute; reflexivity |].
  split; [vm_compute; reflexivity |].
  split; [vm_compute; reflexivity |].
  split; [vm_compute; reflexivity |].
  vm_compute. discriminate.
Qed.

Lemma render_accept_combined k v (str : string) :
  truthy (Some str) = true →
  k ≠ Key.element →
  (k, v) ≠ (Key.id, "") →
  render (accept (k, v) (combined str)) = str +:+ fragment (k, v).
Proof.
  destruct str as [|x str]; [done |]. intros _ Hk Hv.
  destruct k; try done; unfold render, pick; simpl;
    rewrite ?append_empty_r; try done.
  by destruct v as [|y v].
Qed.

(** Where C9 holds: a selector returned by [combine] has an empty append
    history ([combine] writes the element slot without recording category
    1), so on every combined selector and for every value each of the
    non-element appends [.id], [.class], [.attr], [.pseudoClass],
    [.pseudoElement] succeeds, without [OrderError]; unless the append is
    [.id("")], its fragment is rendered after the combined string, in its
    usual category position, and a second [.id] or [.pseudoElement] raises
    [DuplicateFragmentError]. *)
Theorem combined_accepts_others (h h' : heap) left_ s right_ c :
  cssSelectorBuilder.combine left_ s right_ h = Some (h', Return c) →
  ∃ o str,
    h' !! c = Some o ∧ order o = [] ∧
    CSSSelector.stringify c h' = Some (h', Return str) ∧
    ∀ k v, k ≠ Key.element →
      ∃ h'',
        append c (k, v) h' = Some (h'', Return c) ∧
        ((k, v) ≠ (Key.id, "") →
           CSSSelector.stringify c h'' =
             Some (h'', Return (str +:+ fragment (k, v))) ∧
           (k = Key.id ∨ k = Key.pseudoElements →
              ∀ v', append c (k, v') h'' =
                    Some (h'', Throw DuplicateFragmentError))).
Proof.
  intros E. apply combine_inv in E as (sl & sr & -> & ->).
  pose proof (truthy_combined sl s sr) as Et.
  set (str := combined_string sl s sr) in *. set (c := fresh (dom h)).
  exists (combined str), str. split; [apply lookup_insert_eq |].
  split; [done |]. split.
  { rewrite (stringify_run _ _ _ (lookup_insert_eq _ _ _)).
    by rewrite render_combined. }
  intros k v Hk. eexists. split.
  { rewrite (append_run _ _ _ _ (lookup_insert_eq _ _ _)).
    assert (step (k, v) (combined str) = (accept (k, v) (combined str), None))
      as -> by by destruct k.
    by rewrite insert_insert_eq. }
  intros Hv. split.
  { rewrite (stringify_run _ _ _ (lookup_insert_eq _ _ _)).
    by rewrite render_accept_combined. }
  intros Hk' v'.
  rewrite (append_run _ _ _ _ (lookup_insert_eq _ _ _)).
  rewrite step_occupied; [done |].
  destruct Hk' as [-> | ->]; [| done].
  destruct v; [done | done].
Qed.

Lemma combined_accepts_others_witness :
  ∃ h' : heap,
    cssSelectorBuilder.combine 0%nat ">" 1%nat ab_heap = Some (h', Return 2%nat) ∧
    ∃ h'',
      append 2%nat (Key.classes, "c") h' = Some (h'', Return 2%nat) ∧
      CSSSelector.stringify 2%nat h'' = Some (h'', Return ".a > #b.c").
Proof.
  eexists. split; [vm_compute; reflexivity |].
  match goal with
  | |- ∃ _, append _ _ ?h' = _ ∧ _ =>
      destruct (combined_accepts_others ab_heap h' 0%nat ">" 1%nat 2%nat)
        as (o & str & _ & _ & Es & H)
  end.
  - vm_compute; reflexivity.
  - destruct (H Key.classes "c") as (h'' & Ea & Er); [done |].
    exists h''. split; [exact Ea |].
    destruct Er as [Er _]; [done |]. rewrite Er. do 3 f_equal.
    assert (Some (str : string) = Some ".a > #b") as [= ->]; [| done].
    vm_compute in Es. by injection Es as <-.
Defined.

(** ** Truthiness of the slots *)

Lemma falsy_overwritten (k : Key.t) (h h1 : heap) this b v :
  k = Key.element ∨ k = Key.id →
  append this (k, "") h = Some (h1, Return b) →
  ∃ o, append b (k, v) h1 = Some (<[b := accept (k, v) o]> h1, Return b) ∧
       h1 !! b = Some o.
Proof.
  intros Hk E. apply accepted_append in E as (o & Eo & _ & -> & ->).
  exists (accept (k, "") o). split; [| apply lookup_insert_eq].
  rewrite (append_run _ _ _ _ (lookup_insert_eq _ _ _)).
  unfold step. rewrite behind_accept.
  by destruct Hk as [-> | ->]; simpl.
Qed.

(** C10: the duplicate checks of [element] and [id] test the truthiness of
    the stored value, not whether it was ever set: after an accepted
    [.element("")] a subsequent [.element(v)] does not raise
    [DuplicateFragmentError] and overwrites the slot, and likewise for
    [.id("")]; [stringify] omits the element, and the fragment [#]+id,
    whenever the stored value is falsy ([null] or the empty string). *)
Theorem falsy_slots :
  (∀ (h h1 : heap) this b v,
     CSSSelector.element this "" h = Some (h1, Return b) →
     ∃ h2 o, CSSSelector.element b v h1 = Some (h2, Return b) ∧
             h2 !! b = Some o ∧ Parts.element (parts o) = Some v) ∧
  (∀ (h h1 : heap) this b v,
     CSSSelector.id this "" h = Some (h1, Return b) →
     ∃ h2 o, CSSSelector.id b v h1 = Some (h2, Return b) ∧
             h2 !! b = Some o ∧ Parts.id (parts o) = Some v) ∧
  (∀ (h : heap) this o,
     h !! this = Some o →
     let p := parts o in
     CSSSelector.stringify this h =
     Some (h, Return (
       (if truthy (Parts.element p) then default "" (Parts.element p) else "") +:+
       (if truthy (Parts.id p) then "#" +:+ default "" (Parts.id p) else "") +:+
       cat ((λ v, "." +:+ v) <$> Parts.classes p) +:+
       cat ((λ v, "[" +:+ v +:+ "]") <$> Parts.attributes p) +:+
       cat ((λ v, ":" +:+ v) <$> Parts.pseudoClasses p) +:+
       cat ((λ v, "::" +:+ v) <$> Parts.pseudoElements p)))).
Proof.
  split; [| split].
  - intros h h1 this b v E.
    change (CSSSelector.element b v h1) with (append b (Key.element, v) h1).
    destruct (falsy_overwritten Key.element h h1 this b v) as (o & -> & Eo);
      [by left | exact E |].
    eexists _, _. split; [done |]. split; [apply lookup_insert_eq | done].
  - intros h h1 this b v E.
    change (CSSSelector.id b v h1) with (append b (Key.id, v) h1).
    destruct (falsy_overwritten Key.id h h1 this b v) as (o & -> & Eo);
      [by right | exact E |].
    eexists _, _. split; [done |]. split; [apply lookup_insert_eq | done].
  - intros h this o E p. rewrite (stringify_run _ _ _ E). reflexivity.
Qed.

Lemma falsy_slots_witness :
  ∃ h1 : heap,
    CSSSelector.element O "" new_heap = Some (h1, Return O) ∧
    ∃ h2 o, CSSSelector.element O "div" h1 = Some (h2, Return O) ∧
            h2 !! O = Some o ∧ Parts.element (parts o) = Some "div".
Proof.
  eexists. split; [vm_compute; reflexivity |].
  eapply (proj1 falsy_slots new_heap _ O O "div").
  vm_compute; reflexivity.
Defined.

(** ** A second [element], [id] or [pseudoElement] *)

Lemma occupied_step k c o :
  occupied k o = true → occupied k (step c o).1 = true.
Proof.
  intros E. unfold step.
  destruct (occupied c.1 o) eqn:Ec; [done |].
  destruct (behind c.1 o); [done |]. simpl.
  destruct c as [kc v]. simpl in *.
  destruct k, kc; simpl in *; try done; try congruence.
Qed.

Lemma occupied_attempts k cs o :
  occupied k o = true → occupied k (attempts cs o) = true.
Proof.
  revert o. induction cs as [|c cs IH]; intros o E; simpl; [done |].
  by apply IH, occupied_step.
Qed.

(** Where C2 holds: once [element] or [id] was accepted with a non-empty
    string, or [pseudoElement] with any string, and whatever was called on
    the builder since, a second call of the same method raises
    [DuplicateFragmentError]. *)
Lemma second_call_duplicate (h h0 h1 : heap) this b k v cs v' :
  (k = Key.element ∨ k = Key.id) ∧ v ≠ "" ∨ k = Key.pseudoElements →
  append this (k, v) h = Some (h0, Return b) →
  tries b cs h0 = Some (h1, Return ()) →
  append b (k, v') h1 = Some (h1, Throw DuplicateFragmentError).
Proof.
  intros Hk E Ecs. apply accepted_append in E as (o & Eo & _ & -> & ->).
  rewrite (tries_run _ _ _ _ (lookup_insert_eq _ _ _)) in Ecs.
  injection Ecs as <-.
  rewrite (append_run _ _ _ _ (lookup_insert_eq _ _ _)).
  rewrite step_occupied; [done |]. simpl.
  apply occupied_attempts.
  destruct Hk as [[[-> | ->] Hv] | ->]; simpl.
  - by destruct v.
  - by destruct v.
  - rewrite length_app. simpl. apply bool_decide_eq_true. lia.
Qed.

(** C2 at [cssSelectorBuilder.id("").id("x")] and at
    [cssSelectorBuilder.element("").element("a")]: the second call does not
    raise, it returns the builder with the slot overwritten. *)
Theorem second_call_after_empty_accepted :
  (∃ (h' : heap) b o,
     (b ← cssSelectorBuilder.id ""; CSSSelector.id b "x") ∅ =
       Some (h', Return b) ∧
     h' !! b = Some o ∧ Parts.id (parts o) = Some "x") ∧
  (∃ (h' : heap) b o,
     (b ← cssSelectorBuilder.element ""; CSSSelector.element b "a") ∅ =
       Some (h', Return b) ∧
     h' !! b = Some o ∧ Parts.element (parts o) = Some "a").
Proof.
  split; eexists _, _, _;
    (split; [vm_compute; reflexivity |]);
    (split; [vm_compute; reflexivity | reflexivity]).
Qed.

(** * The other tasks *)

(** ** [sellTickets] *)

Lemma bills_nil (b : Z) : bills b [] = 0.
Proof. reflexivity. Qed.

Lemma bills_cons (b x : Z) (l : list Z) :
  bills b (x :: l) = (if decide (x = b) then 1 else 0) + bills b l.
Proof.
  unfold bills. rewrite filter_cons.
  destruct (decide (x = b)); simpl; lia.
Qed.

Lemma every_sell_iff (queue : list Z) (change : Z) :
  0 ≤ change →
  (every sell queue change).2 = true ↔
  Forall (λ bill, bill = 25 ∨ bill = 50 ∨ bill = 100) queue ∧
  ∀ n, 0 ≤ change + 25 * bills 25 (take n queue)
              - 25 * bills 50 (take n queue)
              - 75 * bills 100 (take n queue).
Proof.
  revert change. induction queue as [|bill queue IH]; intros change Hc.
  - simpl. split; [| done]. intros _. split; [constructor |].
    intros n. rewrite take_nil, !bills_nil. lia.
  - assert (∀ change',
      0 ≤ change' →
      (bill = 25 ∨ bill = 50 ∨ bill = 100) →
      change' = change + 25 * bills 25 [bill] - 25 * bills 50 [bill]
                - 75 * bills 100 [bill] →
      (every sell queue change').2 = true ↔
      Forall (λ bill, bill = 25 ∨ bill = 50 ∨ bill = 100) (bill :: queue) ∧
      ∀ n, 0 ≤ change + 25 * bills 25 (take n (bill :: queue))
                  - 25 * bills 50 (take n (bill :: queue))
                  - 75 * bills 100 (take n (bill :: queue))) as Served.
    { intros change' Hc' Hb ->. rewrite (IH _ Hc'). rewrite Forall_cons.
      rewrite !bills_cons, !bills_nil in *.
      split.
      - intros [HF Hn]. split; [done |]. intros [|n]; simpl.
        + rewrite !bills_nil. lia.
        + specialize (Hn n). rewrite !bills_cons. lia.
      - intros [[_ HF] Hn]. split; [done |]. intros n.
        specialize (Hn (S n)). simpl in Hn. rewrite !bills_cons in Hn. lia. }
    assert (∀ b, b ≠ true →
      ¬ (Forall (λ bill, bill = 25 ∨ bill = 50 ∨ bill = 100) (bill :: queue) ∧
         0 ≤ change + 25 * bills 25 (take 1 (bill :: queue))
                  - 25 * bills 50 (take 1 (bill :: queue))
                  - 75 * bills 100 (take 1 (bill :: queue))) →
      b = true ↔
      Forall (λ bill, bill = 25 ∨ bill = 50 ∨ bill = 100) (bill :: queue) ∧
      ∀ n, 0 ≤ change + 25 * bills 25 (take n (bill :: queue))
                  - 25 * bills 50 (take n (bill :: queue))
                  - 75 * bills 100 (take n (bill :: queue))) as Refused.
    { intros b Hb Hno. split; [done |]. intros [HF Hn]. destruct Hno. eauto. }
    simpl. unfold sell.
    repeat case_bool_decide; simpl; subst.
    + apply Served; [lia | auto |]. rewrite !bills_cons, !bills_nil. simpl. lia.
    + apply Refused; [done |]. intros [_ Hn].
      simpl in Hn. rewrite !bills_cons, !bills_nil in Hn. simpl in Hn. lia.
    + apply Served; [lia | auto |]. rewrite !bills_cons, !bills_nil. simpl. lia.
    + apply Refused; [done |]. intros [_ Hn].
      simpl in Hn. rewrite !bills_cons, !bills_nil in Hn. simpl in Hn. lia.
    + apply Served; [lia | auto |]. rewrite !bills_cons, !bills_nil. simpl. lia.
    + apply Refused; [done |]. intros [HF _].
      apply Forall_cons in HF as [[?|[?|?]] _]; done.
Qed.

(** X1: [sellTickets] answers [true] exactly when every bill is 25, 50 or
    100 and, after each customer, the 25 bills taken in so far cover one for
    every 50 bill and three for every 100 bill: change is given in 25 bills
    only, a 50 bill taken in is never handed out. *)
Theorem sellTickets_iff (queue : list Z) :
  sellTickets queue = true ↔
  Forall (λ bill, bill = 25 ∨ bill = 50 ∨ bill = 100) queue ∧
  ∀ n, bills 50 (take n queue) + 3 * bills 100 (take n queue)
       ≤ bills 25 (take n queue).
Proof.
  unfold sellTickets. rewrite every_sell_iff by done.
  split; intros [HF Hn]; (split; [done |]); intros n; specialize (Hn n); lia.
Qed.

(** X2: the queues [sellTickets] accepts are closed under prefixes: when
    everyone in a queue is served, so is everyone in the queue cut short at
    any customer. *)
Theorem sellTickets_prefix (queue rest : list Z) :
  sellTickets (queue ++ rest) = true → sellTickets queue = true.
Proof.
  unfold sellTickets. rewrite !every_sell_iff by done.
  intros [HF Hn]. apply Forall_app in HF as [HF _].
  split; [done |]. intros n.
  destruct (decide (n ≤ length queue)%nat) as [Hle | Hgt].
  - specialize (Hn n). by rewrite take_app_le in Hn.
  - specialize (Hn (length queue)). rewrite take_app_length in Hn.
    by rewrite take_ge by lia.
Qed.

Lemma sellTickets_prefix_witness :
  sellTickets ([25; 50; 25] ++ [50]) = true ∧
  sellTickets [25; 50; 25] = true.
Proof.
  split; [reflexivity |].
  apply (sellTickets_prefix [25; 50; 25] [50]). reflexivity.
Defined.

(** ** [group] *)

Section group_properties.

Context {A K V : Type} `{EqDecision K}.

Lemma Map_get_set_eq {W} (key : K) (value : W) (m : list (K * W)) :
  Map_get key (Map_set key value m) = Some value.
Proof.
  induction m as [|[k v] m IH]; simpl.
  - by rewrite decide_True.
  - destruct (decide (k = key)) as [-> | Hk]; simpl.
    + by rewrite decide_True.
    + by rewrite decide_False.
Qed.

Lemma Map_get_set_ne {W} (key key' : K) (value : W) (m : list (K * W)) :
  key ≠ key' → Map_get key' (Map_set key value m) = Map_get key' m.
Proof.
  intros Hne. induction m as [|[k v] m IH]; simpl.
  - by rewrite decide_False.
  - destruct (decide (k = key)) as [-> | Hk]; simpl.
    + by rewrite !decide_False.
    + by rewrite IH.
Qed.

Lemma Map_get_None {W} (key : K) (m : list (K * W)) :
  Map_get key m = None ↔ key ∉ m.*1.
Proof.
  induction m as [|[k v] m IHm]; simpl.
  - split; [intros _; apply not_elem_of_nil | done].
  - rewrite not_elem_of_cons. destruct (decide (k = key)) as [-> | Hk].
    + split; [done | by intros [? _]].
    + rewrite IHm. split; [intros ?; split; [congruence | done] | by intros [_ ?]].
Qed.

Lemma Map_set_keys {W} (key : K) (value : W) (m : list (K * W)) :
  (Map_set key value m).*1 =
  if decide (key ∈ m.*1) then m.*1 else m.*1 ++ [key].
Proof.
  induction m as [|[k v] m IHm].
  - destruct (decide (key ∈ ([] : list (K * W)).*1)) as [Hin | Hin]; [| done].
    by apply elem_of_nil in Hin.
  - change (((k, v) :: m).*1) with (k :: m.*1).
    change (Map_set key value ((k, v) :: m)) with
      (if decide (k = key) then (k, value) :: m
       else (k, v) :: Map_set key value m).
    destruct (decide (k = key)) as [-> | Hk].
    + destruct (decide (key ∈ key :: m.*1)) as [Hin | Hin]; [done |].
      destruct Hin. apply list_elem_of_here.
    + change (((k, v) :: Map_set key value m).*1)
        with (k :: (Map_set key value m).*1).
      rewrite IHm.
      destruct (decide (key ∈ m.*1)) as [Hin | Hin],
        (decide (key ∈ k :: m.*1)) as [Hin' | Hin']; try done.
      * destruct Hin'. by apply list_elem_of_further.
      * apply elem_of_cons in Hin' as [-> | Hin']; done.
Qed.

(** One turn of the [reduce] of [group]. *)
Lemma group_snoc (array : list A) (item : A)
    (keySelector : A → K) (valueSelector : A → V) :
  group (array ++ [item]) keySelector valueSelector =
  let multimap := group array keySelector valueSelector in
  let key := keySelector item in
  let value := valueSelector item in
  match Map_get key multimap with
  | Some values => Map_set key (values ++ [value]) multimap
  | None => Map_set key [value] (Map_set key [] multimap)
  end.
Proof.
  unfold group. rewrite foldl_snoc.
  set (m := foldl _ [] array). cbv zeta. unfold Map_push.
  destruct (Map_get (keySelector item) m) as [values|] eqn:E; [done |].
  by rewrite Map_get_set_eq.
Qed.

Lemma Map_set_set {W} (key : K) (v1 v2 : W) (m : list (K * W)) :
  Map_set key v2 (Map_set key v1 m) = Map_set key v2 m.
Proof.
  induction m as [|[k v] m IH]; simpl.
  - by rewrite decide_True.
  - destruct (decide (k = key)) as [-> | Hk]; simpl.
    + by rewrite decide_True.
    + by rewrite decide_False, IH.
Qed.

(** X3: in the [Map] that [group] returns, the array under a key holds the
    values of the elements that have this key, in the order of the input
    array; a key that no element has is absent, and no array is empty. *)
Theorem group_get (array : list A) (keySelector : A → K)
    (valueSelector : A → V) (key : K) :
  Map_get key (group array keySelector valueSelector) =
  match filter (λ item, keySelector item = key) array with
  | [] => None
  | items => Some (valueSelector <$> items)
  end.
Proof.
  induction array as [|item array IH] using rev_ind; [done |].
  rewrite group_snoc, filter_app. simpl. rewrite Map_set_set.
  set (m := group array keySelector valueSelector) in *.
  assert (Map_get key
    (Map_set (keySelector item)
       (default [] (Map_get (keySelector item) m) ++ [valueSelector item]) m) =
    match filter (λ item, keySelector item = key) array ++
          filter (λ item0, keySelector item0 = key) [item] with
    | [] => None
    | items => Some (valueSelector <$> items)
    end) as Goal.
  { rewrite filter_cons, filter_nil.
    destruct (decide (keySelector item = key)) as [<- | Hne].
    - rewrite Map_get_set_eq, IH.
      destruct (filter _ array) as [|x l]; [done |].
      simpl. by rewrite fmap_app.
    - rewrite Map_get_set_ne by done. by rewrite app_nil_r. }
  by destruct (Map_get (keySelector item) m).
Qed.

(** X4: the keys of the [Map] that [group] returns are the keys of the
    elements of the array, each once, in the order in which they first
    occur. *)
Theorem group_keys (array : list A) (keySelector : A → K)
    (valueSelector : A → V) :
  let keys := (group array keySelector valueSelector).*1 in
  NoDup keys ∧
  keys = reverse (remove_dups (reverse (keySelector <$> array))).
Proof.
  simpl.
  assert ((group array keySelector valueSelector).*1 =
          reverse (remove_dups (reverse (keySelector <$> array)))) as ->.
  { induction array as [|item array IH] using rev_ind; [done |].
    rewrite group_snoc, fmap_app, reverse_app. simpl. rewrite Map_set_set.
    set (m := group array keySelector valueSelector) in *.
    assert (∀ values : list V, (Map_set (keySelector item) values m).*1 =
      reverse (if decide_rel elem_of (keySelector item)
                    (reverse (keySelector <$> array))
               then remove_dups (reverse (keySelector <$> array))
               else keySelector item ::
                    remove_dups (reverse (keySelector <$> array)))) as Keys.
    { intros values. rewrite Map_set_keys, IH.
      destruct (decide_rel elem_of (keySelector item)
        (reverse (keySelector <$> array))) as [Hin | Hin].
      - rewrite decide_True; [done |].
        by apply elem_of_reverse, elem_of_remove_dups.
      - rewrite decide_False; [by rewrite reverse_cons |].
        by rewrite elem_of_reverse, elem_of_remove_dups. }
    destruct (Map_get (keySelector item) m); apply Keys. }
  split; [| done]. rewrite reverse_Permutation. apply NoDup_remove_dups.
Qed.

Lemma Map_set_values (key : K) (values new : list V) (m : list (K * list V)) :
  Map_get key m = Some values →
  concat (Map_set key (values ++ new) m).*2 ≡ₚ concat m.*2 ++ new.
Proof.
  induction m as [|[k vs] m IHm]; [done |].
  cbn [Map_get Map_set]. destruct (decide (k = key)) as [-> | Hne].
  - intros [= ->]. simpl. rewrite <- !app_assoc.
    apply Permutation_app_head, Permutation_app_comm.
  - intros E. simpl. rewrite (IHm E). by rewrite app_assoc.
Qed.

Lemma Map_set_new_values (key : K) (new : list V) (m : list (K * list V)) :
  Map_get key m = None →
  concat (Map_set key new m).*2 = concat m.*2 ++ new.
Proof.
  induction m as [|[k vs] m IHm]; [intros _; simpl; by rewrite app_nil_r |].
  cbn [Map_get Map_set]. destruct (decide (k = key)) as [-> | Hne]; [done |].
  intros E. rewrite !fmap_cons. cbn [snd concat].
  by rewrite (IHm E), app_assoc.
Qed.

(** X5: [group] loses no element and repeats none: the arrays of the [Map]
    it returns, taken together, hold the values of the elements of the
    input array, each as often as it occurs there. *)
Theorem group_values (array : list A) (keySelector : A → K)
    (valueSelector : A → V) :
  concat (group array keySelector valueSelector).*2 ≡ₚ
  valueSelector <$> array.
Proof.
  induction array as [|item array IH] using rev_ind; [done |].
  rewrite group_snoc, fmap_app. cbv zeta.
  set (m := group array keySelector valueSelector) in *.
  destruct (Map_get (keySelector item) m) as [values|] eqn:E.
  - by rewrite (Map_set_values _ _ _ _ E), IH.
  - rewrite Map_set_set.
    by rewrite (Map_set_new_values _ _ _ E), IH.
Qed.

End group_properties.

(** ** [removeProperties] *)

(** X6: the object [removeProperties] returns has none of the listed keys
    and, under every other key, what the source object has; keys that the
    source object does not have are skipped. *)
Theorem removeProperties_lookup {V} (obj : gmap string V)
    (keys : list string) (key : string) :
  removeProperties obj keys !! key =
  if decide (key ∈ keys) then None else obj !! key.
Proof.
  unfold removeProperties. revert obj.
  induction keys as [|k keys IH]; intros obj; cbn [foldl].
  - by destruct (decide (key ∈ [])) as [Hin%elem_of_nil |].
  - assert ((if bool_decide (is_Some (obj !! k)) then delete k obj else obj)
            = delete k obj) as ->.
    { case_bool_decide as Hk; [done |].
      symmetry. apply delete_id. by apply eq_None_not_Some. }
    rewrite IH.
    destruct (decide (key ∈ keys)) as [Hin | Hin].
    + by rewrite decide_True by by apply list_elem_of_further.
    + destruct (decide (key = k)) as [-> | Hne].
      * rewrite decide_True by apply list_elem_of_here.
        apply lookup_delete_eq.
      * rewrite decide_False by by rewrite not_elem_of_cons.
        by apply lookup_delete_ne.
Qed.

(** ** [makeWord] *)

Lemma wordMap_positions (letter : string) (positions : list nat)
    (wordMap : gmap nat string) (p : nat) :
  foldl (λ wordMap position, <[position := letter]> wordMap)
    wordMap positions !! p =
  if decide (p ∈ positions) then Some letter else wordMap !! p.
Proof.
  revert wordMap. induction positions as [|q positions IH]; intros wordMap.
  - by destruct (decide (p ∈ [])) as [Hin%elem_of_nil |].
  - cbn [foldl]. rewrite IH.
    destruct (decide (p ∈ positions)) as [Hin | Hin].
    + by rewrite decide_True by by apply list_elem_of_further.
    + destruct (decide (p = q)) as [-> | Hne].
      * rewrite decide_True by apply list_elem_of_here.
        apply lookup_insert_eq.
      * rewrite decide_False by by rewrite not_elem_of_cons.
        by apply lookup_insert_ne.
Qed.

Lemma wordMap_letters (lettersObject : list (string * list nat))
    (wordMap : gmap nat string) (p : nat) :
  let wordMap' :=
    foldl (λ wordMap '(letter, positions),
      foldl (λ wordMap position, <[position := letter]> wordMap)
        wordMap positions) wordMap lettersObject in
  (∀ letter, wordMap' !! p = Some letter →
     wordMap !! p = Some letter ∨
     ∃ positions, (letter, positions) ∈ lettersObject ∧ p ∈ positions) ∧
  (is_Some (wordMap !! p) ∨
   (∃ letter positions, (letter, positions) ∈ lettersObject ∧ p ∈ positions) →
   is_Some (wordMap' !! p)).
Proof.
  revert wordMap.
  induction lettersObject as [|[l ps] lettersObject IH]; intros wordMap; simpl.
  - split; [by left |]. intros [? | (? & ? & []%elem_of_nil & _)]; done.
  - destruct (IH (foldl (λ wordMap position, <[position := l]> wordMap)
                    wordMap ps)) as [IH1 IH2].
    split.
    + intros letter [E | (positions & Hin & Hp)]%IH1.
      * rewrite wordMap_positions in E.
        destruct (decide (p ∈ ps)) as [Hps | Hps]; [| by left].
        injection E as <-. right. exists ps. split; [| done].
        apply list_elem_of_here.
      * right. exists positions. split; [| done].
        by apply list_elem_of_further.
    + intros Hp. apply IH2. rewrite wordMap_positions.
      destruct (decide (p ∈ ps)) as [Hps | Hps]; [by left |].
      destruct Hp as [? | (letter & positions & Hin & Hp)]; [by left |].
      apply elem_of_cons in Hin as [[= -> ->] | Hin]; [done |].
      right. eauto.
Qed.

Lemma StronglySorted_seq (j n : nat) : StronglySorted (≤)%nat (seq j n).
Proof.
  revert j. induction n as [|n IH]; intros j; simpl; constructor; [done |].
  apply Forall_forall. intros x Hx%elem_of_seq. lia.
Qed.

Lemma makeWord_letters (lettersObject : list (string * list nat))
    (word : list string) :
  (∀ letter positions p,
     (letter, positions) ∈ lettersObject → p ∈ positions →
     word !! p = Some letter) →
  (∀ p, (p < length word)%nat →
     ∃ letter positions, (letter, positions) ∈ lettersObject ∧ p ∈ positions) →
  makeWord lettersObject = join word.
Proof.
  intros Hletter Hcover. unfold makeWord.
  set (wordMap := foldl _ ∅ lettersObject).
  assert (∀ p letter, wordMap !! p = Some letter → word !! p = Some letter)
    as Hin.
  { intros p letter E.
    destruct (wordMap_letters lettersObject ∅ p) as [H1 _].
    destruct (H1 letter E) as [E' | (positions & Hl & Hp)]; [done |].
    by eapply Hletter. }
  assert (∀ p, (p < length word)%nat → is_Some (wordMap !! p)) as Hall.
  { intros p Hp.
    destruct (wordMap_letters lettersObject ∅ p) as [_ H2].
    apply H2. right. by apply Hcover. }
  assert (merge_sort (≤)%nat (map_to_list wordMap).*1 = seq 0 (length word))
    as ->.
  { apply (StronglySorted_unique (≤)%nat).
    - apply StronglySorted_merge_sort; apply _.
    - apply StronglySorted_seq.
    - rewrite merge_sort_Permutation. apply NoDup_Permutation.
      + apply NoDup_fst_map_to_list.
      + apply NoDup_seq.
      + intros p. rewrite elem_of_seq, list_elem_of_fmap. split.
        * intros ([p' letter] & -> & E%elem_of_map_to_list). simpl.
          apply Hin, lookup_lt_Some in E. lia.
        * intros [_ Hp]. destruct (Hall p) as [letter E]; [lia |].
          exists (p, letter). split; [done |].
          by apply elem_of_map_to_list. }
  f_equal. apply list_eq. intros i. rewrite list_lookup_fmap.
  destruct (decide (i < length word)%nat) as [Hi | Hi].
  - rewrite lookup_seq_lt by done. simpl.
    destruct (Hall i Hi) as [letter E].
    rewrite (lookup_total_correct _ _ _ E). symmetry. by apply Hin.
  - rewrite lookup_seq_ge by lia. simpl. symmetry.
    apply lookup_ge_None. lia.
Qed.

(** X7: [makeWord] gives a word back from the positions of its letters:
    when every position listed under a letter is a position of that letter
    in [word], and every position of [word] is listed, the result is
    [word]. *)
Theorem makeWord_word (lettersObject : list (string * list nat))
    (word : list string) :
  Forall (λ e, Forall (λ p, word !! p = Some e.1) e.2) lettersObject →
  seq 0 (length word) ⊆ concat lettersObject.*2 →
  makeWord lettersObject = join word.
Proof.
  intros Hletter Hcover. apply makeWord_letters.
  - intros letter positions p Hin Hp.
    rewrite Forall_forall in Hletter. specialize (Hletter _ Hin).
    rewrite Forall_forall in Hletter. by apply Hletter.
  - intros p Hp.
    assert (p ∈ concat lettersObject.*2) as Hc.
    { apply Hcover, elem_of_seq. lia. }
    apply list_elem_of_In, in_concat in Hc as (positions & Hc & Hpos).
    apply list_elem_of_In in Hc, Hpos.
    apply list_elem_of_fmap in Hc as ([letter positions'] & -> & Hc).
    eauto.
Qed.

Lemma makeWord_word_witness :
  makeWord [("a", [0; 1]); ("b", [2; 3]); ("c", [4; 5])]%nat =
  join ["a"; "a"; "b"; "b"; "c"; "c"].
Proof. apply makeWord_word; compute_done. Defined.

(** ** [mergeObjects] *)

Section mergeObjects_properties.

Context {V : Type} (is_number : V → bool) (plus : V → V → V).

Lemma fromEntries_lookup (entries : list (string * V)) (key : string) :
  fromEntries entries !! key =
  snd <$> last (filter (λ e, e.1 = key) entries).
Proof.
  unfold fromEntries.
  induction entries as [|e entries IH] using rev_ind; [done |].
  rewrite foldl_snoc, filter_app, filter_cons, filter_nil.
  destruct (decide (e.1 = key)) as [<- | Hne].
  - by rewrite lookup_insert_eq, last_snoc.
  - by rewrite lookup_insert_ne, app_nil_r.
Qed.

Lemma merge_entry_nil (key : string) (value : V) :
  merge_entry is_number plus [] (key, value) = [(key, value)].
Proof. reflexivity. Qed.

Lemma merge_entry_cons (k0 : string) (v0 : V) (acc : list (string * V))
    (key : string) (value : V) :
  merge_entry is_number plus ((k0, v0) :: acc) (key, value) =
  if decide (k0 = key) then
    if is_number value then (k0, plus v0 value) :: acc
    else (k0, v0) :: acc ++ [(key, value)]
  else (k0, v0) :: merge_entry is_number plus acc (key, value).
Proof.
  unfold merge_entry. cbn [list_find]. simpl.
  destruct (decide (k0 = key)) as [-> | Hne]; simpl.
  - by destruct (is_number value).
  - destruct (list_find (λ e, e.1 = key) acc) as [[i [k v]]|]; simpl.
    + by destruct (is_number value).
    + done.
Qed.

Lemma merge_entry_filter (acc : list (string * V)) (key : string) (value : V)
    (k : string) :
  filter (λ e, e.1 = k) (merge_entry is_number plus acc (key, value)) =
  if decide (key = k) then
    match filter (λ e, e.1 = k) acc with
    | [] => [(key, value)]
    | (k', v) :: rest =>
        if is_number value then (k', plus v value) :: rest
        else ((k', v) :: rest) ++ [(key, value)]
    end
  else filter (λ e, e.1 = k) acc.
Proof.
  induction acc as [|[k0 v0] acc IH].
  - rewrite merge_entry_nil, filter_cons, filter_nil. cbn [fst snd].
    by destruct (decide (key = k)).
  - rewrite merge_entry_cons, (filter_cons _ (k0, v0)). cbn [fst snd].
    destruct (decide (k0 = key)) as [-> | Hne].
    + destruct (decide (key = k)) as [-> | Hk].
      * destruct (is_number value).
        -- rewrite filter_cons. cbn [fst snd]. by rewrite decide_True.
        -- rewrite filter_cons, filter_app, filter_cons, filter_nil. cbn [fst snd].
           by rewrite !decide_True.
      * destruct (is_number value).
        -- rewrite filter_cons. cbn [fst snd]. by rewrite decide_False.
        -- rewrite filter_cons, filter_app, filter_cons, filter_nil. cbn [fst snd].
           by rewrite !decide_False, app_nil_r.
    + rewrite filter_cons, IH. cbn [fst snd].
      destruct (decide (key = k)) as [-> | Hk]; [| done].
      by destruct (decide (k0 = k)).
Qed.

Lemma foldl_concat {B C} (f : B → C → B) (b : B) (ls : list (list C)) :
  foldl (λ acc l, foldl f acc l) b ls = foldl f b (concat ls).
Proof.
  revert b. induction ls as [|l ls IH]; intros b; simpl; [done |].
  by rewrite foldl_app, IH.
Qed.

(** The entries under [key] when the [reduce] is over. *)
Lemma merged_filter (entries : list (string * V)) (key : string) :
  filter (λ e, e.1 = key) (foldl (merge_entry is_number plus) [] entries) =
  match (filter (λ e, e.1 = key) entries).*2 with
  | [] => []
  | v :: vs =>
      (key, foldl plus v (filter (λ w, is_number w = true) vs)) ::
      ((λ w, (key, w)) <$> filter (λ w, is_number w ≠ true) vs)
  end.
Proof.
  induction entries as [|[k value] entries IH] using rev_ind; [done |].
  rewrite foldl_snoc, merge_entry_filter, IH.
  rewrite filter_app, filter_cons, filter_nil. cbn [fst snd].
  destruct (decide (k = key)) as [-> | Hne]; [| by rewrite app_nil_r].
  rewrite fmap_app. cbn [fmap list_fmap snd].
  destruct ((filter (λ e, e.1 = key) entries).*2) as [|v vs];
    [reflexivity |].
  cbn [app]. rewrite !filter_app, !filter_cons, !filter_nil.
  destruct (decide (is_number value = true)) as [En | En],
    (decide (is_number value ≠ true)) as [En' | En']; try done.
  - by rewrite En, foldl_snoc, app_nil_r.
  - apply not_true_is_false in En.
    by rewrite En, fmap_app, app_nil_r.
Qed.

Lemma mergeObjects_entries (objects : list (list (string * V))) (key : string) :
  mergeObjects is_number plus objects !! key =
  match (filter (λ e, e.1 = key) (concat objects)).*2 with
  | [] => None
  | v :: vs =>
      match last (filter (λ w, is_number w ≠ true) vs) with
      | Some w => Some w
      | None => Some (foldl plus v (filter (λ w, is_number w = true) vs))
      end
  end.
Proof.
  unfold mergeObjects.
  rewrite fromEntries_lookup, foldl_concat, merged_filter.
  destruct ((filter (λ e, e.1 = key) (concat objects)).*2) as [|v vs];
    [done |].
  destruct (filter (λ w, is_number w ≠ true) vs) as [|w ws]
    using rev_ind; [done |].
  rewrite fmap_app. simpl. by rewrite app_comm_cons, !last_snoc.
Qed.

(** X8: under a key, the object [mergeObjects] returns has the values that
    the objects of the array list under this key, added up from left to
    right, provided those after the first are numbers; a key that no object
    has is absent. *)
Theorem mergeObjects_sums (objects : list (list (string * V))) (key : string) :
  let values := (filter (λ e, e.1 = key) (concat objects)).*2 in
  Forall (λ w, is_number w = true) (tail values) →
  mergeObjects is_number plus objects !! key =
  match values with
  | [] => None
  | v :: vs => Some (foldl plus v vs)
  end.
Proof.
  simpl. intros Hn. rewrite mergeObjects_entries.
  destruct ((filter (λ e, e.1 = key) (concat objects)).*2) as [|v vs];
    [done |].
  simpl in Hn.
  assert (filter (λ w, is_number w = true) vs = vs) as ->.
  { induction Hn as [|w vs Hw Hn IH]; [done |].
    by rewrite filter_cons, decide_True, IH. }
  assert (filter (λ w, is_number w ≠ true) vs = []) as ->; [| done].
  induction Hn as [|w vs Hw Hn IH]; [done |].
  rewrite filter_cons, decide_False; [done | by intros []].
Qed.

(** X9: a value that is not a number is never added: under a key that the
    objects list with such a value after the first value, the object
    [mergeObjects] returns has the last such value, and the numbers listed
    under the key are left out. *)
Theorem mergeObjects_not_number (objects : list (list (string * V)))
    (key : string) (v w : V) (vs : list V) :
  (filter (λ e, e.1 = key) (concat objects)).*2 = v :: vs →
  last (filter (λ w, is_number w ≠ true) vs) = Some w →
  mergeObjects is_number plus objects !! key = Some w.
Proof.
  intros Ev Ew. by rewrite mergeObjects_entries, Ev, Ew.
Qed.

End mergeObjects_properties.

Lemma mergeObjects_sums_witness :
  mergeObjects (λ _ : Z, true) Z.add
    [[("a", 1); ("b", 2)]; [("b", 3); ("c", 5)]] !! "b" = Some 5.
Proof.
  apply (mergeObjects_sums (λ _ : Z, true) Z.add
    [[("a", 1); ("b", 2)]; [("b", 3); ("c", 5)]] "b").
  compute_done.
Defined.

Lemma mergeObjects_not_number_witness :
  mergeObjects
    (λ v : Z + string, match v with inl _ => true | inr _ => false end)
    (λ v w, match v, w with inl a, inl b => inl (a + b) | _, _ => v end)
    [[("a", inl 1)]; [("a", inr "x")]; [("a", inl 2)]] !! "a" =
  Some (inr "x").
Proof.
  apply (mergeObjects_not_number _ _ _ "a" (inl 1) (inr "x")
    [inr "x"; inl 2]); reflexivity.
Defined.

(** ** Invariants of the builder *)

#[local] Instance ranked_transitive : Transitive ranked.
Proof. unfold ranked. intros a b c. lia. Qed.

Lemma behind_false_last k o :
  behind k o = false → TlRel ranked k (order o).
Proof.
  unfold behind. destruct (order o) as [|b l _] using rev_ind.
  - intros _. constructor.
  - rewrite last_snoc. intros Hb%bool_decide_eq_false.
    constructor. unfold ranked. lia.
Qed.

Lemma step_order_sorted c o :
  Sorted ranked (order o) → Sorted ranked (order (step c o).1).
Proof.
  intros Hs. unfold step. destruct (occupied c.1 o); [done |].
  destruct (behind c.1 o) eqn:Eb; [done |]. simpl.
  by apply Sorted_snoc, behind_false_last.
Qed.

Lemma step_pseudoElements c o :
  (length (Parts.pseudoElements (parts o)) ≤ 1)%nat →
  (length (Parts.pseudoElements (parts (step c o).1)) ≤ 1)%nat.
Proof.
  intros Hl. unfold step. destruct (occupied c.1 o) eqn:Eo; [done |].
  destruct (behind c.1 o); [done |].
  destruct c as [[] v]; simpl in *; try done.
  apply bool_decide_eq_false in Eo. rewrite length_app. simpl. lia.
Qed.

Lemma attempts_invariants cs o :
  Sorted ranked (order o) →
  (length (Parts.pseudoElements (parts o)) ≤ 1)%nat →
  Sorted ranked (order (attempts cs o)) ∧
  (length (Parts.pseudoElements (parts (attempts cs o))) ≤ 1)%nat.
Proof.
  revert o. induction cs as [|c cs IH]; intros o Hs Hl; simpl; [done |].
  apply IH; [by apply step_order_sorted | by apply step_pseudoElements].
Qed.

(** X10: whatever is called on a builder after [new CSSSelector()], accepted
    or rejected, the categories recorded in [order] never go down in rank
    and [pseudoElements] holds at most one entry. *)
Theorem builder_invariants (h : heap) (cs : list call) :
  ∃ h' o,
    (this ← CSSSelector.new; tries this cs;; get this) h =
      Some (h', Return o) ∧
    Sorted ranked (order o) ∧
    (length (Parts.pseudoElements (parts o)) ≤ 1)%nat.
Proof.
  eexists _, _. split.
  - rewrite bind_run, new_run, bind_run.
    rewrite (tries_run _ _ CSSSelector.constructor)
      by apply lookup_insert_eq.
    rewrite insert_insert_eq. by apply get_run, lookup_insert_eq.
  - apply attempts_invariants; [constructor | simpl; lia].
Qed.

Lemma steps_attempts cs o o' :
  steps cs o = (o', None) → attempts cs o = o'.
Proof.
  revert o. induction cs as [|c cs IH]; intros o; simpl.
  - by intros [= <-].
  - destruct (step c o) as [o1 [e|]] eqn:E; [done |]. simpl. apply IH.
Qed.

Lemma steps_order cs o o' :
  steps cs o = (o', None) → order o' = order o ++ cs.*1.
Proof.
  revert o. induction cs as [|c cs IH]; intros o; simpl.
  - intros [= <-]. by rewrite app_nil_r.
  - destruct (step c o) as [o1 [e|]] eqn:E; [done |].
    intros ->%IH. unfold step in E.
    destruct (occupied c.1 o); [done |]. destruct (behind c.1 o); [done |].
    injection E as <-. simpl. by rewrite <- app_assoc.
Qed.

Lemma steps_pseudoElements cs o o' :
  steps cs o = (o', None) →
  Parts.pseudoElements (parts o') =
  Parts.pseudoElements (parts o) ++ (of_category Key.pseudoElements cs).*2.
Proof.
  revert o. induction cs as [|c cs IH]; intros o; simpl.
  - intros [= <-]. by rewrite app_nil_r.
  - destruct (step c o) as [o1 [e|]] eqn:E; [done |].
    intros ->%IH. unfold step in E.
    destruct (occupied c.1 o); [done |]. destruct (behind c.1 o); [done |].
    injection E as <-. unfold of_category. rewrite filter_cons.
    destruct c as [[] v]; simpl; try done.
    by rewrite <- app_assoc.
Qed.

(** X11: when a chain of calls on a new builder is accepted, [order] holds
    the categories of the calls, one per call and in call order; the calls
    come in category order, and at most one of them is [pseudoElement]. *)
Theorem accepted_chain_in_order (h h' : heap) (cs : list call) b :
  (this ← CSSSelector.new; chain this cs) h = Some (h', Return b) →
  ∃ o, h' !! b = Some o ∧
       order o = cs.*1 ∧
       Sorted ranked cs.*1 ∧
       (length (of_category Key.pseudoElements cs) ≤ 1)%nat.
Proof.
  rewrite build_run.
  destruct (steps cs CSSSelector.constructor) as [o' [e|]] eqn:Es;
    simpl; [done |].
  intros [= <- <-]. exists o'. split; [apply lookup_insert_eq |].
  pose proof (steps_order _ _ _ Es) as Eo. simpl in Eo.
  pose proof (steps_pseudoElements _ _ _ Es) as Ep. simpl in Ep.
  destruct (attempts_invariants cs CSSSelector.constructor)
    as [Hs Hl]; [constructor | simpl; lia |].
  rewrite (steps_attempts _ _ _ Es) in Hs, Hl.
  split; [done |]. split; [by rewrite <- Eo |].
  by rewrite Ep, length_fmap in Hl.
Qed.

Lemma accepted_chain_in_order_witness :
  ∃ h' : heap,
    (this ← CSSSelector.new; chain this scenario_calls) ∅ = Some (h', Return O) ∧
    ∃ o, h' !! O = Some o ∧
         order o = scenario_calls.*1 ∧
         Sorted ranked scenario_calls.*1 ∧
         (length (of_category Key.pseudoElements scenario_calls) ≤ 1)%nat.
Proof.
  eexists. split; [vm_compute; reflexivity |].
  apply (accepted_chain_in_order ∅ _ scenario_calls O).
  vm_compute; reflexivity.
Defined.

Lemma behind_false_rank k o :
  last_rank o ≤ CSSSelector.orderMap k → behind k o = false.
Proof.
  unfold behind, last_rank. destruct (last (order o)) as [l|]; [| done].
  intros Hle. apply bool_decide_eq_false. lia.
Qed.

Lemma of_category_cons_length k c cs :
  length (of_category k (c :: cs)) =
  ((if decide (c.1 = k) then 1 else 0) + length (of_category k cs))%nat.
Proof.
  unfold of_category. rewrite filter_cons. by destruct (decide (c.1 = k)).
Qed.

Lemma of_category_elem k cs :
  k ∈ cs.*1 → (1 ≤ length (of_category k cs))%nat.
Proof.
  induction cs as [|c cs IH]; [by intros ?%elem_of_nil |].
  rewrite fmap_cons, of_category_cons_length, elem_of_cons.
  destruct (decide (c.1 = k)) as [<- | Hne]; [lia |].
  intros [-> | Hin]; [done |]. by apply IH.
Qed.

Lemma steps_accepts cs o :
  StronglySorted ranked cs.*1 →
  Forall (λ k, (length (of_category k cs) ≤ 1)%nat)
    [Key.element; Key.id; Key.pseudoElements] →
  (∀ k, k ∈ cs.*1 → occupied k o = false) →
  (∀ k, k ∈ cs.*1 → last_rank o ≤ CSSSelector.orderMap k) →
  (steps cs o).2 = None.
Proof.
  revert o. induction cs as [|c cs IH]; intros o Hs H1 Hocc Hrank; [done |].
  rewrite fmap_cons in Hs. apply StronglySorted_inv in Hs as [Hs Hc].
  simpl. unfold step.
  rewrite Hocc by apply list_elem_of_here.
  rewrite behind_false_rank by apply Hrank, list_elem_of_here.
  apply IH.
  - done.
  - eapply Forall_impl; [exact H1 |]. intros k. simpl.
    rewrite of_category_cons_length. lia.
  - intros k Hk. pose proof (of_category_elem _ _ Hk) as Hone.
    assert (occupied k o = false) as Ho
      by by apply Hocc, list_elem_of_further.
    assert (k ∈ [Key.element; Key.id; Key.pseudoElements] → c.1 ≠ k) as Hne.
    { intros Hin Heq. rewrite Forall_forall in H1. specialize (H1 _ Hin).
      simpl in H1. rewrite of_category_cons_length, decide_True in H1 by done.
      lia. }
    destruct c as [kc v]. simpl in Hne.
    destruct k; try done; destruct kc; simpl in *; try done;
      exfalso; apply Hne; try done;
      repeat first [apply list_elem_of_here | apply list_elem_of_further].
  - intros k Hk. unfold last_rank, accept. simpl. rewrite last_snoc.
    rewrite Forall_forall in Hc. by apply Hc.
Qed.

(** X12: a chain of calls in category order, with at most one [element],
    one [id] and one [pseudoElement], is accepted by a new builder whatever
    the values are: no call of it raises. *)
Theorem ordered_chain_accepted (h : heap) (cs : list call) :
  Sorted ranked cs.*1 →
  Forall (λ k, (length (of_category k cs) ≤ 1)%nat)
    [Key.element; Key.id; Key.pseudoElements] →
  ∃ h' b, (this ← CSSSelector.new; chain this cs) h = Some (h', Return b).
Proof.
  intros Hs H1. eexists _, _. rewrite build_run.
  rewrite (steps_accepts cs CSSSelector.constructor); [done | | done | |].
  - by apply Sorted_StronglySorted; [apply _ |].
  - intros k _. by destruct k.
  - intros k _. by destruct k.
Qed.

Lemma ordered_chain_accepted_witness :
  ∃ (h' : heap) b,
    (this ← CSSSelector.new; chain this scenario_calls) ∅ = Some (h', Return b).
Proof. apply (ordered_chain_accepted ∅ scenario_calls); compute_done. Defined.

(** ** Rendering in call order *)

Lemma of_category_lower k cs :
  Forall (λ c, CSSSelector.orderMap k < CSSSelector.orderMap c.1) cs →
  of_category k cs = [].
Proof.
  intros Hlow. unfold of_category.
  induction Hlow as [|c cs Hc Hlow IH]; [done |].
  rewrite filter_cons, decide_False; [done |].
  intros Heq. rewrite Heq in Hc. lia.
Qed.

Lemma canonical_cons c cs :
  Forall (ranked c.1) cs.*1 →
  canonical (c :: cs) = fragment c +:+ canonical cs.
Proof.
  intros Hc.
  assert (∀ k, CSSSelector.orderMap k < CSSSelector.orderMap c.1 →
               of_category k (c :: cs) = [] ∧ of_category k cs = []) as Low.
  { intros k Hk.
    assert (of_category k cs = []) as E.
    { apply of_category_lower. rewrite Forall_fmap in Hc.
      eapply Forall_impl; [exact Hc |]. unfold ranked. simpl. lia. }
    split; [| done]. unfold of_category in *.
    rewrite filter_cons, decide_False; [done |].
    intros Heq. rewrite Heq in Hk. lia. }
  assert (∀ k, c.1 ≠ k → of_category k (c :: cs) = of_category k cs) as Other.
  { intros k Hk. unfold of_category. by rewrite filter_cons, decide_False. }
  assert (of_category c.1 (c :: cs) = c :: of_category c.1 cs) as Same.
  { unfold of_category. by rewrite filter_cons, decide_True. }
  unfold canonical, categories.
  destruct c as [[] v]; simpl in *;
    repeat match goal with
    | |- context [of_category ?k ((?kc, v) :: cs)] =>
        first
          [ rewrite (proj1 (Low k ltac:(simpl; lia))),
              (proj2 (Low k ltac:(simpl; lia)))
          | rewrite (Other k ltac:(done))
          | rewrite Same ]
    end;
    simpl; by rewrite ?append_assoc.
Qed.

Lemma canonical_sorted cs :
  StronglySorted ranked cs.*1 → canonical cs = cat (fragment <$> cs).
Proof.
  induction cs as [|c cs IH]; [done |].
  rewrite fmap_cons. intros [Hs Hc]%StronglySorted_inv.
  rewrite canonical_cons by done. simpl. by rewrite IH.
Qed.

(** X13: when a chain of calls on a new builder is accepted and no id is
    the empty string, [stringify] returns the fragments of the calls one
    after the other, in the order of the calls. *)
Theorem stringify_call_order (h h' : heap) (cs : list call) b :
  (this ← CSSSelector.new; chain this cs) h = Some (h', Return b) →
  (Key.id, "") ∉ cs →
  CSSSelector.stringify b h' = Some (h', Return (cat (fragment <$> cs))).
Proof.
  rewrite build_run.
  destruct (steps cs CSSSelector.constructor) as [o' [e|]] eqn:Es;
    simpl; [done |].
  intros [= <- <-] Hcs.
  rewrite (stringify_run _ _ o') by apply lookup_insert_eq.
  rewrite (steps_canonical _ _ Es Hcs). do 3 f_equal.
  apply canonical_sorted, Sorted_StronglySorted; [apply _ |].
  destruct (attempts_invariants cs CSSSelector.constructor)
    as [Hs _]; [constructor | simpl; lia |].
  rewrite (steps_attempts _ _ _ Es) in Hs.
  by rewrite (steps_order _ _ _ Es) in Hs.
Qed.

Lemma stringify_call_order_witness :
  ∃ h' : heap,
    (this ← CSSSelector.new; chain this scenario_calls) ∅ = Some (h', Return O) ∧
    CSSSelector.stringify O h' =
      Some (h', Return (cat (fragment <$> scenario_calls))).
Proof.
  eexists. split; [vm_compute; reflexivity |].
  apply (stringify_call_order ∅ _ scenario_calls O).
  - vm_compute; reflexivity.
  - compute_done.
Defined.

(** ** Builders do not share state *)

(** X14: a chain of calls returns the builder it was started on, whether
    or not a call raises it writes to that builder only: every other object
    of the heap is what it was before. *)
Theorem chain_frame (h h' : heap) this (cs : list call) r :
  chain this cs h = Some (h', r) →
  (∀ b, r = Return b → b = this) ∧
  ∀ l, l ≠ this → h' !! l = h !! l.
Proof.
  destruct (h !! this) as [o|] eqn:E.
  - rewrite (chain_run _ _ _ _ E). intros [= <- <-]. split.
    + intros b. destruct (steps cs o).2; congruence.
    + intros l Hl. by rewrite lookup_insert_ne.
  - destruct cs as [|c cs]; simpl.
    + intros [= <- <-]. split; [congruence | done].
    + by rewrite bind_run, (append_stuck _ _ _ E).
Qed.

Lemma chain_frame_witness :
  ∃ h' : heap,
    chain 1%nat [(Key.classes, "c"); (Key.id, "x")] ab_heap =
      Some (h', Throw DuplicateFragmentError) ∧
    ∀ l, l ≠ 1%nat → h' !! l = ab_heap !! l.
Proof.
  eexists. split; [vm_compute; reflexivity |].
  eapply (chain_frame ab_heap _ 1%nat [(Key.classes, "c"); (Key.id, "x")]).
  vm_compute; reflexivity.
Defined.
